(** * Batch rename orchestrator: a shallow embedding of [App.tsx] and of the
    oracle client [analyzeFilenamesBatch], with the properties of the
    specification stated and settled over it.

    JavaScript strings are sequences of UTF-16 code units: the regular
    expressions of [sanitizePart] carry no [u] flag and therefore work unit
    by unit.  A string is a [list N] of code units here. *)

From Stdlib Require Import NArith ZArith Lia Ascii String DecimalN.
From stdpp Require Import base decidable option numbers list sets gmap.

Close Scope string_scope.

Set Default Proof Using "Type".

Open Scope N_scope.

(** ** JavaScript strings *)

Abbreviation jsstring := (list N).

(** An ASCII literal as code units. *)
Fixpoint js (s : String.string) : jsstring :=
  match s with
  | String.EmptyString => []
  | String.String a r => Ascii.N_of_ascii a :: js r
  end.

Definition UNDERSCORE : N := 95.
Definition DOT : N := 46.
Definition BACKTICK : N := 96.

(** [s.startsWith(p)] *)
Fixpoint startsWith (s p : jsstring) : bool :=
  match p, s with
  | [], _ => true
  | _ :: _, [] => false
  | a :: p', b :: s' => (a =? b) && startsWith s' p'
  end.

(** [s.includes(p)]: [p] occurs somewhere in [s]. *)
Fixpoint includes (s p : jsstring) : bool :=
  startsWith s p ||
  match s with
  | [] => false
  | _ :: s' => includes s' p
  end.

(** [s.lastIndexOf(c)] for a one-unit needle: the index of the last
    occurrence, [-1] when there is none. *)
Fixpoint lastIndexOf (c : N) (s : jsstring) : Z :=
  match s with
  | [] => (-1)%Z
  | u :: t =>
      let r := lastIndexOf c t in
      if (r =? -1)%Z then (if u =? c then 0%Z else (-1)%Z) else (r + 1)%Z
  end.

(** [s.substring(a)] and [s.substring(0, b)] for indexes inside the string. *)
Definition substringFrom (s : jsstring) (a : Z) : jsstring := drop (Z.to_nat a) s.
Definition substringTo (s : jsstring) (b : Z) : jsstring := take (Z.to_nat b) s.

(** The decimal rendering of a counter, as the template literal
    [`${counter}`] produces it for a non-negative integer. *)
Fixpoint uint_units (d : Decimal.uint) : jsstring :=
  match d with
  | Decimal.Nil => []
  | Decimal.D0 r => 48 :: uint_units r
  | Decimal.D1 r => 49 :: uint_units r
  | Decimal.D2 r => 50 :: uint_units r
  | Decimal.D3 r => 51 :: uint_units r
  | Decimal.D4 r => 52 :: uint_units r
  | Decimal.D5 r => 53 :: uint_units r
  | Decimal.D6 r => 54 :: uint_units r
  | Decimal.D7 r => 55 :: uint_units r
  | Decimal.D8 r => 56 :: uint_units r
  | Decimal.D9 r => 57 :: uint_units r
  end.

Definition numberToString (n : N) : jsstring := uint_units (N.to_uint n).

(** ** Sanitizer ([sanitizePart], App.tsx) *)

(** The class [a-zA-Z0-9一-龥]. *)
Definition isWordUnit (u : N) : bool :=
  ((97 <=? u) && (u <=? 122)) || ((65 <=? u) && (u <=? 90)) ||
  ((48 <=? u) && (u <=? 57)) || ((0x4e00 <=? u) && (u <=? 0x9fa5)).

(** The units the first regular expression keeps: the negated class
    [[^a-zA-Z0-9一-龥]] or, with [allowDots],
    [[^a-zA-Z0-9一-龥.]]. *)
Definition isKept (allowDots : bool) (u : N) : bool :=
  isWordUnit u || (allowDots && (u =? DOT)).

(** [str.replace(regex, '_')] *)
Definition replaceUnsafe (allowDots : bool) (s : jsstring) : jsstring :=
  (fun u => if isKept allowDots u then u else UNDERSCORE) <$> s.

(** [safe.replace(/_+/g, '_')]: every maximal run of underscores becomes
    one underscore (an underscore followed by another one is dropped). *)
Fixpoint collapseUnderscores (s : jsstring) : jsstring :=
  match s with
  | [] => []
  | u :: t =>
      match t with
      | v :: _ =>
          if (u =? UNDERSCORE) && (v =? UNDERSCORE)
          then collapseUnderscores t
          else u :: collapseUnderscores t
      | [] => [u]
      end
  end.

(** Remove the first unit when it is [c]; remove the last unit when it is
    [c]. *)
Definition dropFirstIf (c : N) (s : jsstring) : jsstring :=
  match s with
  | u :: t => if u =? c then t else s
  | [] => []
  end.

Fixpoint dropLastIf (c : N) (s : jsstring) : jsstring :=
  match s with
  | [] => []
  | u :: t =>
      match t with
      | [] => if u =? c then [] else [u]
      | _ :: _ => u :: dropLastIf c t
      end
  end.

(** [safe.replace(/^_|_$/g, '')]: the leading alternative is tried first,
    at index 0; the trailing one can then only match a later unit. *)
Definition trimUnderscore (s : jsstring) : jsstring :=
  dropLastIf UNDERSCORE (dropFirstIf UNDERSCORE s).

(** The leading run of [c], and the trailing run of [c], removed. *)
Fixpoint dropLeading (c : N) (s : jsstring) : jsstring :=
  match s with
  | u :: t => if u =? c then dropLeading c t else s
  | [] => []
  end.

Fixpoint dropTrailing (c : N) (s : jsstring) : jsstring :=
  match s with
  | [] => []
  | u :: t =>
      match dropTrailing c t with
      | [] => if u =? c then [] else [u]
      | r => u :: r
      end
  end.

(** [safe.replace(/^\.+|\.+$/g, '')] *)
Definition trimDots (s : jsstring) : jsstring :=
  dropTrailing DOT (dropLeading DOT s).

Definition Unknown : jsstring := js "Unknown".

(** [a || 'Unknown'] on strings: the empty string is falsy. *)
Definition orUnknown (s : jsstring) : jsstring :=
  match s with [] => Unknown | _ => s end.

(** The steps of [sanitizePart] after the guard [if (!str)]. *)
Definition sanitizeSteps (allowDots : bool) (str : jsstring) : jsstring :=
  let safe := replaceUnsafe allowDots str in
  let safe := collapseUnderscores safe in
  let safe := trimUnderscore safe in
  if allowDots then trimDots safe else safe.

(** [sanitizePart(str, allowDots)]; [None] is [undefined]. *)
Definition sanitizePart (str : option jsstring) (allowDots : bool) : jsstring :=
  match str with
  | None => Unknown
  | Some [] => Unknown
  | Some s => orUnknown (sanitizeSteps allowDots s)
  end.


(** *** Predicates on sanitized strings *)

(** A unit that [replaceUnsafe] leaves in place: a kept unit or the
    underscore itself. *)
Definition isSafeUnit (allowDots : bool) (u : N) : bool :=
  isKept allowDots u || (u =? UNDERSCORE).

(** No underscore is followed by another one. *)
Fixpoint noDoubleUnderscore (s : jsstring) : Prop :=
  match s with
  | u :: t =>
      match t with
      | v :: _ => ~ (u = UNDERSCORE /\ v = UNDERSCORE) /\ noDoubleUnderscore t
      | [] => True
      end
  | [] => True
  end.

(** The strings on which every step of the sanitizer is the identity. *)
Record stable (allowDots : bool) (s : jsstring) : Prop := {
  stable_units : Forall (fun u => isSafeUnit allowDots u = true) s;
  stable_runs : noDoubleUnderscore s;
  stable_head : head s <> Some UNDERSCORE;
  stable_last : last s <> Some UNDERSCORE;
  stable_dots : allowDots = true -> head s <> Some DOT /\ last s <> Some DOT
}.

(** ** Data model (types.ts) *)

Inductive Status := pending | processing | completed | error.

#[global] Instance Status_eq_dec : EqDecision Status.
Proof. solve_decision. Defined.

Record IconMetadata := {
  englishName : jsstring;
  chineseName : jsstring;
  domainOrNote : jsstring
}.

(** The browser's [File]: the orchestrator reads its name only. *)
Record File := { name : jsstring }.

Record ProcessedFile := {
  id : jsstring;
  originalFile : File;
  originalName : jsstring;
  newName : option jsstring;
  status : Status;
  metadata : option IconMetadata
}.

Record BatchResult := {
  res_id : jsstring;
  res_originalName : jsstring;
  english : jsstring;
  chinese : jsstring;
  domain : jsstring
}.

(** [{ ...f, status: s }] *)
Definition withStatus (s : Status) (f : ProcessedFile) : ProcessedFile :=
  {| id := id f; originalFile := originalFile f; originalName := originalName f;
     newName := newName f; status := s; metadata := metadata f |}.

(** [{ ...file, status: 'completed', newName: n, metadata: m }] *)
Definition withCompleted (n : jsstring) (m : IconMetadata) (f : ProcessedFile)
  : ProcessedFile :=
  {| id := id f; originalFile := originalFile f; originalName := originalName f;
     newName := Some n; status := completed; metadata := Some m |}.

(** ** Queue handlers (App.tsx) *)

Definition CHUNK_SIZE : nat := 50.

(** [handleFilesSelected]: each new file comes with the identifier drawn for
    it ([Math.random] and [Date.now] are the environment's). *)
Definition handleFilesSelected (newFiles : list (jsstring * File))
    (prev : list ProcessedFile) : list ProcessedFile :=
  prev ++ ((fun p : jsstring * File =>
              {| id := fst p; originalFile := snd p; originalName := name (snd p);
                 newName := None; status := pending; metadata := None |})
           <$> newFiles).

(** [handleDeleteFile] *)
Definition handleDeleteFile (i : jsstring) (prev : list ProcessedFile)
  : list ProcessedFile :=
  filter (fun f => id f <> i) prev.

(** [files.filter(f => f.status === 'pending')] *)
Definition pendingOf (files : list ProcessedFile) : list ProcessedFile :=
  filter (fun f => status f = pending) files.

(** [pendingFiles.slice(0, CHUNK_SIZE)], the bound left open. *)
Definition chunkOf (chunkSize : nat) (files : list ProcessedFile)
  : list ProcessedFile :=
  take chunkSize (pendingOf files).

(** One entry of [chunkData]. *)
Record ChunkDatum := {
  d_id : jsstring;
  nameWithoutExt : jsstring;
  ext : jsstring;
  d_originalName : jsstring
}.

Definition chunkDatum (f : ProcessedFile) : ChunkDatum :=
  let lastDotIndex := lastIndexOf DOT (originalName f) in
  {| d_id := id f;
     nameWithoutExt :=
       if (lastDotIndex =? -1)%Z then originalName f
       else substringTo (originalName f) lastDotIndex;
     ext :=
       if (lastDotIndex =? -1)%Z then []
       else substringFrom (originalName f) (lastDotIndex + 1);
     d_originalName := originalName f |}.

(** ** Name resolution (the loop of the merge step) *)

(** The name the loop body builds from [baseFinalName] and [counter]. *)
Definition suffixedName (baseFinalName : jsstring) (counter : N) : jsstring :=
  let dotIndex := lastIndexOf DOT baseFinalName in
  if (dotIndex =? -1)%Z
  then baseFinalName ++ [UNDERSCORE] ++ numberToString counter
  else substringTo baseFinalName dotIndex ++ [UNDERSCORE] ++
       numberToString counter ++ substringFrom baseFinalName dotIndex.

(** The names the loop tries, in order: the base, then the base with the
    counters 1, 2, ... *)
Definition candidate (baseFinalName : jsstring) (k : nat) : jsstring :=
  match k with
  | O => baseFinalName
  | S _ => suffixedName baseFinalName (N.of_nat k)
  end.

(** [`${safeEng}--${safeChn}--${safeDom}${originalExt}`] *)
Definition baseName (safeEng safeChn safeDom originalExt : jsstring) : jsstring :=
  safeEng ++ js "--" ++ safeChn ++ js "--" ++ safeDom ++ originalExt.

(** [pData?.ext ? `.${pData.ext}` : ''] *)
Definition originalExtOf (pData : option ChunkDatum) : jsstring :=
  match pData with
  | Some d => match ext d with [] => [] | e => DOT :: e end
  | None => []
  end.

(** One oracle cycle in flight: what the closure of [processNextBatch]
    holds across its [await]s. *)
Inductive Phase := awaitingOracle | coolingDown | finished.

#[global] Instance Phase_eq_dec : EqDecision Phase.
Proof. solve_decision. Defined.

Record Batch := {
  chunkIds : gset jsstring;
  chunkData : list ChunkDatum;
  itemsToSend : list (jsstring * jsstring);
  usedNames : gset jsstring;
  phase : Phase
}.

Definition withPhase (p : Phase) (b : Batch) : Batch :=
  {| chunkIds := chunkIds b; chunkData := chunkData b;
     itemsToSend := itemsToSend b; usedNames := usedNames b; phase := p |}.

(** The state of the component: the React state [files], [isProcessing],
    [batchTick], the refs [isRequestInFlight] and [filesRef], and the
    closures of the cycles started so far.  [statusMessage] is display
    only and left out. *)
Record AppState := {
  files : list ProcessedFile;
  isProcessing : bool;
  batchTick : nat;
  isRequestInFlight : bool;
  filesRef : list ProcessedFile;
  batches : list Batch
}.

Definition initialState : AppState :=
  {| files := []; isProcessing := false; batchTick := 0;
     isRequestInFlight := false; filesRef := []; batches := [] |}.

Definition setFiles (g : list ProcessedFile -> list ProcessedFile) (st : AppState)
  : AppState :=
  {| files := g (files st); isProcessing := isProcessing st;
     batchTick := batchTick st; isRequestInFlight := isRequestInFlight st;
     filesRef := filesRef st; batches := batches st |}.

Definition setIsProcessing (b : bool) (st : AppState) : AppState :=
  {| files := files st; isProcessing := b; batchTick := batchTick st;
     isRequestInFlight := isRequestInFlight st; filesRef := filesRef st;
     batches := batches st |}.

Definition setInFlight (b : bool) (st : AppState) : AppState :=
  {| files := files st; isProcessing := isProcessing st;
     batchTick := batchTick st; isRequestInFlight := b;
     filesRef := filesRef st; batches := batches st |}.

Definition setBatchTick (g : nat -> nat) (st : AppState) : AppState :=
  {| files := files st; isProcessing := isProcessing st;
     batchTick := g (batchTick st); isRequestInFlight := isRequestInFlight st;
     filesRef := filesRef st; batches := batches st |}.

Definition setFilesRef (l : list ProcessedFile) (st : AppState) : AppState :=
  {| files := files st; isProcessing := isProcessing st;
     batchTick := batchTick st; isRequestInFlight := isRequestInFlight st;
     filesRef := l; batches := batches st |}.

Definition setBatches (g : list Batch -> list Batch) (st : AppState) : AppState :=
  {| files := files st; isProcessing := isProcessing st;
     batchTick := batchTick st; isRequestInFlight := isRequestInFlight st;
     filesRef := filesRef st; batches := g (batches st) |}.

(** [handleStartProcessing], [handleStopProcessing], [handleRestart] (the
    confirmation given). *)
Definition handleStartProcessing (st : AppState) : AppState :=
  setIsProcessing true st.

Definition handleStopProcessing (st : AppState) : AppState :=
  setInFlight false
    (setFiles (fmap (fun f => if decide (status f = processing)
                              then withStatus pending f else f))
       (setIsProcessing false st)).

Definition handleRestart (st : AppState) : AppState :=
  setInFlight false (setFiles (fun _ => []) (setIsProcessing false st)).

(** The update of the zombie branch:
    [prev.map(f => f.status === 'processing' ? { ...f, status: 'error' } : f)] *)
Definition healZombies (prev : list ProcessedFile) : list ProcessedFile :=
  (fun f => if decide (status f = processing) then withStatus error f else f)
  <$> prev.

(** The update that marks the chunk: chunk records become [processing], a
    record still [processing] from before becomes [error]. *)
Definition markChunk (ids : gset jsstring) (prev : list ProcessedFile)
  : list ProcessedFile :=
  (fun f => if decide (id f ∈ ids) then withStatus processing f
            else if decide (status f = processing) then withStatus error f
            else f) <$> prev.

(** The update of the [catch] branch. *)
Definition failChunk (ids : gset jsstring) (prev : list ProcessedFile)
  : list ProcessedFile :=
  (fun f => if decide (id f ∈ ids) then withStatus error f else f) <$> prev.

(** An update that leaves a record alone or only moves it to a status
    other than [completed]. *)
Definition demotes (g : ProcessedFile -> ProcessedFile) : Prop :=
  forall f, g f = f \/ exists s, s <> completed /\ g f = withStatus s f.

(** ** The oracle client's data (geminiService) *)

(** A thrown value as the [catch] block inspects it. *)
Record JsError := {
  message : option jsstring;
  err_status : option N
}.

(** One element of the parsed response array. *)
Record RawItem := {
  raw_i : jsstring;
  raw_n : jsstring;
  raw_e : jsstring;
  raw_c : jsstring;
  raw_d : jsstring
}.

(** What one call of [generateContent] does: it throws, or it resolves to
    a response whose [text] may be undefined. *)
Inductive ApiReply :=
| Throws (e : JsError)
| Responds (text : option jsstring).

(** The class [\s] of JavaScript regular expressions. *)
Definition isSpace (u : N) : bool :=
  ((9 <=? u) && (u <=? 13)) || (u =? 32) || (u =? 0xa0) || (u =? 0x1680) ||
  ((0x2000 <=? u) && (u <=? 0x200a)) || (u =? 0x2028) || (u =? 0x2029) ||
  (u =? 0x202f) || (u =? 0x205f) || (u =? 0x3000) || (u =? 0xfeff).

Fixpoint dropSpaces (s : jsstring) : jsstring :=
  match s with
  | u :: t => if isSpace u then dropSpaces t else s
  | [] => []
  end.

Definition FENCE : jsstring := [BACKTICK; BACKTICK; BACKTICK].

(** [s.replace(/\s*```$/, '')] *)
Definition stripClosingFence (s : jsstring) : jsstring :=
  let r := rev s in
  if startsWith r FENCE then rev (dropSpaces (drop 3 r)) else s.

(** The cleanup of Markdown code fences. *)
Definition stripFences (text : jsstring) : jsstring :=
  if startsWith text (FENCE ++ js "json")
  then stripClosingFence (dropSpaces (drop 7 text))
  else if startsWith text FENCE
  then stripClosingFence (dropSpaces (drop 3 text))
  else text.

Definition toBatchResult (item : RawItem) : BatchResult :=
  {| res_id := raw_i item; res_originalName := raw_n item;
     english := raw_e item; chinese := raw_c item; domain := raw_d item |}.

(** The test of the [catch] block:
    [error.message?.includes('429') || error.status === 429], and the same
    with 503. *)
Definition mentions (code : jsstring) (n : N) (e : JsError) : bool :=
  match message e with Some m => includes m code | None => false end ||
  match err_status e with Some s => s =? n | None => false end.

Definition isRateLimit (e : JsError) : bool := mentions (js "429") 429 e.
Definition isServerBusy (e : JsError) : bool := mentions (js "503") 503 e.
Definition isTransient (e : JsError) : bool := isRateLimit e || isServerBusy e.

(** The waits of the retry schedule, in milliseconds. *)
Definition waitTime (retries : nat) : Z := (3000 * (4 - Z.of_nat retries))%Z.

(** The waits of three retries. *)
Definition retrySchedule : list Z := [3000; 6000; 9000]%Z.

(** ASCII lower-casing, unit by unit: what [toLowerCase] does on strings of
    Basic Latin and CJK units. *)
Definition asciiLowerUnit (u : N) : N :=
  if (65 <=? u) && (u <=? 90) then u + 32 else u.

Definition asciiLower (s : jsstring) : jsstring := asciiLowerUnit <$> s.

Section Model.

(** [JSON.parse] on the cleaned text, read as the array of items the
    response schema describes; [inl] is the exception it throws. *)
Variable JSON_parse : jsstring -> JsError + list RawItem.

(** [String.prototype.toLowerCase]. *)
Variable toLowerCase : jsstring -> jsstring.

(** *** [analyzeFilenamesBatch] *)

(** The body of the [try] block on one reply: [inl] is the exception that
    reaches the [catch] block, [inr] the value returned. *)
Definition tryBody (reply : ApiReply) : JsError + list BatchResult :=
  match reply with
  | Throws e => inl e
  | Responds None => inr []
  | Responds (Some []) => inr []
  | Responds (Some text) =>
      match JSON_parse (stripFences text) with
      | inl e => inl e
      | inr rawData => inr (toBatchResult <$> rawData)
      end
  end.

(** An attempt that ends in the [catch] block with an error the client
    takes for a rate limit or a busy server. *)
Definition failsTransiently (reply : ApiReply) : bool :=
  match tryBody reply with
  | inl e => isTransient e
  | inr _ => false
  end.

(** The retry loop.  [replies n] is what the [n]-th call of
    [generateContent] from now on does.  The result is the list of waits
    slept through, and the value returned ([inr]) or the exception thrown
    to the caller ([inl]).  [retries] only decreases and the loop is left
    at [retries = 0] at the latest, so the [return []] after the loop is
    never reached. *)
Fixpoint retryLoop (retries : nat) (replies : nat -> ApiReply)
  : list Z * (JsError + list BatchResult) :=
  match tryBody (replies O) with
  | inr results => ([], inr results)
  | inl e =>
      match retries with
      | S retries' =>
          if isTransient e
          then let rest := retryLoop retries' (fun n => replies (S n)) in
               (waitTime retries :: fst rest, snd rest)
          else ([], inl e)
      | O => ([], inl e)
      end
  end.

Definition analyzeFilenamesBatch (replies : nat -> ApiReply)
  : list Z * (JsError + list BatchResult) :=
  retryLoop 3 replies.

(** *** The merge step of [processNextBatch] *)

(** [while (usedNames.has(uniqueName.toLowerCase())) { ... }]: [fuel]
    bounds the number of times the body runs; [None] when it does not
    suffice. *)
Fixpoint uniqueLoop (fuel : nat) (used : gset jsstring)
    (baseFinalName uniqueName : jsstring) (counter : N) : option jsstring :=
  if decide (toLowerCase uniqueName ∈ used)
  then match fuel with
       | S fuel' =>
           uniqueLoop fuel' used baseFinalName
             (suffixedName baseFinalName counter) (counter + 1)
       | O => None
       end
  else Some uniqueName.

(** The loop from its initial state.  The body runs at most once per
    registered name when distinct candidates have distinct lower-case
    forms ([uniqueName_total]), so [size used] rounds are enough; [None]
    stands for a loop that does not end. *)
Definition uniqueName (used : gset jsstring) (baseFinalName : jsstring)
  : option jsstring :=
  uniqueLoop (size used) used baseFinalName baseFinalName 1.

(** [results.find(r => r.id === file.id)] and
    [chunkData.find(d => d.id === file.id)] *)
Definition findResult (results : list BatchResult) (file : ProcessedFile)
  : option BatchResult :=
  List.find (fun r => bool_decide (res_id r = id file)) results.

Definition findData (b : Batch) (file : ProcessedFile) : option ChunkDatum :=
  List.find (fun d => bool_decide (d_id d = id file)) (chunkData b).

(** The three sanitized labels of a result, as the metadata holds them. *)
Definition metadataOf (res : BatchResult) : IconMetadata :=
  {| englishName := sanitizePart (Some (english res)) false;
     chineseName := sanitizePart (Some (chinese res)) false;
     domainOrNote := sanitizePart (Some (domain res)) true |}.

(** [baseFinalName] for a chunk record and its result. *)
Definition baseFinalNameOf (b : Batch) (res : BatchResult) (file : ProcessedFile)
  : jsstring :=
  let originalExt := originalExtOf (findData b file) in
  let m := metadataOf res in
  baseName (englishName m) (chineseName m) (domainOrNote m) originalExt.

(** The callback of [prev.map] in the merge, with the registry
    [usedNames] it reads and extends passed along. *)
Definition mergeFile (b : Batch) (results : list BatchResult)
    (used : gset jsstring) (file : ProcessedFile)
  : option (ProcessedFile * gset jsstring) :=
  if decide (id file ∈ chunkIds b) then
    match findResult results file with
    | None => Some (withStatus error file, used)
    | Some res =>
        match uniqueName used (baseFinalNameOf b res file) with
        | Some unique =>
            Some (withCompleted unique (metadataOf res) file,
                  {[ toLowerCase unique ]} ∪ used)
        | None => None
        end
    end
  else Some (file, used).

Fixpoint mergeFrom (b : Batch) (results : list BatchResult)
    (used : gset jsstring) (prev : list ProcessedFile)
  : option (list ProcessedFile * gset jsstring) :=
  match prev with
  | [] => Some ([], used)
  | file :: rest =>
      match mergeFile b results used file with
      | Some (file', used') =>
          match mergeFrom b results used' rest with
          | Some (rest', used'') => Some (file' :: rest', used'')
          | None => None
          end
      | None => None
      end
  end.

(** The update of the success branch. *)
Definition mergeResults (b : Batch) (results : list BatchResult)
    (prev : list ProcessedFile) : option (list ProcessedFile) :=
  fst <$> mergeFrom b results (usedNames b) prev.

(** What the merge callback makes of one record when the registry is
    [used] on reaching it. *)
Definition mergeOutcome (b : Batch) (results : list BatchResult)
    (used : gset jsstring) (file file' : ProcessedFile) : Prop :=
  if decide (id file ∈ chunkIds b) then
    match findResult results file with
    | None => file' = withStatus error file
    | Some res =>
        exists m : nat,
          file' = withCompleted (candidate (baseFinalNameOf b res file) m)
                    (metadataOf res) file /\
          (toLowerCase (candidate (baseFinalNameOf b res file) m) ∉ used) /\
          forall j : nat,
            (j < m)%nat ->
            toLowerCase (candidate (baseFinalNameOf b res file) j) ∈ used
    end
  else file' = file.

(** The lower-case new name of a [completed] record, and these names along
    the queue: what the dedup invariant is about. *)
Definition completedName (f : ProcessedFile) : option jsstring :=
  if decide (status f = completed) then toLowerCase <$> newName f else None.

Definition completedNames (l : list ProcessedFile) : list jsstring :=
  omap completedName l.

(** No two [completed] records share a new name, case-insensitively. *)
Definition namesApart (l : list ProcessedFile) : Prop :=
  NoDup (completedNames l).

(** The records whose id is not in the chunk of [b]. *)
Definition outsideChunk (b : Batch) (l : list ProcessedFile) : list ProcessedFile :=
  filter (fun f => id f ∉ chunkIds b) l.

(** *** The cycle *)

(** The registry built at the start of a cycle from [filesRef.current]. *)
Definition collectUsedNames (l : list ProcessedFile) : gset jsstring :=
  foldl (fun acc f =>
           match newName f with
           | Some (u :: t) =>
               if decide (status f = completed)
               then {[ toLowerCase (u :: t) ]} ∪ acc else acc
           | _ => acc
           end) ∅ l.

(** [processNextBatch] up to its first [await]. *)
Definition processNextBatch (chunkSize : nat) (st : AppState) : AppState :=
  let pendingFiles := pendingOf (files st) in
  let chunk := take chunkSize pendingFiles in
  let ids : gset jsstring := list_to_set (id <$> chunk) in
  let data := chunkDatum <$> chunk in
  let items := (fun d => (d_id d, nameWithoutExt d)) <$> data in
  let used := collectUsedNames (filesRef st) in
  setBatches (fun bs => bs ++ [{| chunkIds := ids; chunkData := data;
                                  itemsToSend := items; usedNames := used;
                                  phase := awaitingOracle |}])
    (setFiles (markChunk ids) (setInFlight true st)).

(** The cycle effect, with the chunk size left open. *)
Definition cycleEffectWith (chunkSize : nat) (st : AppState) : AppState :=
  if negb (isProcessing st) then st
  else if isRequestInFlight st then st
  else match pendingOf (files st) with
       | [] =>
           if existsb (fun f => bool_decide (status f = processing)) (files st)
           then setFiles healZombies st
           else setIsProcessing false st
       | _ :: _ => processNextBatch chunkSize st
       end.

Definition cycleEffect : AppState -> AppState := cycleEffectWith CHUNK_SIZE.

(** What happens in the application. *)
Inductive Event :=
| FilesSelected (newFiles : list (jsstring * File))
| DeleteFile (i : jsstring)
| StartProcessing
| StopProcessing
| Restart
| RunEffects
| OracleSettled (k : nat) (outcome : JsError + list BatchResult)
| CooldownElapsed (k : nat).

(** The continuation of cycle [k] after [await analyzeFilenamesBatch]:
    the merge or the [catch] update. *)
Definition oracleSettled (k : nat) (outcome : JsError + list BatchResult)
    (st : AppState) : option AppState :=
  match batches st !! k with
  | Some b =>
      match phase b with
      | awaitingOracle =>
          let st' := setBatches (<[k := withPhase coolingDown b]>) st in
          match outcome with
          | inr results =>
              match mergeResults b results (files st) with
              | Some l => Some (setFiles (fun _ => l) st')
              | None => None
              end
          | inl _ => Some (setFiles (failChunk (chunkIds b)) st')
          end
      | _ => Some st
      end
  | None => Some st
  end.

(** The end of the [finally] block of cycle [k]. *)
Definition cooldownElapsed (k : nat) (st : AppState) : AppState :=
  match batches st !! k with
  | Some b =>
      match phase b with
      | coolingDown =>
          setBatchTick S
            (setInFlight false (setBatches (<[k := withPhase finished b]>) st))
      | _ => st
      end
  | None => st
  end.

(** One event.  [RunEffects] is a commit: the effect that copies [files]
    into [filesRef] runs first, the cycle effect second.  [None]: the
    merge does not return. *)
Definition step (st : AppState) (ev : Event) : option AppState :=
  match ev with
  | FilesSelected newFiles => Some (setFiles (handleFilesSelected newFiles) st)
  | DeleteFile i => Some (setFiles (handleDeleteFile i) st)
  | StartProcessing => Some (handleStartProcessing st)
  | StopProcessing => Some (handleStopProcessing st)
  | Restart => Some (handleRestart st)
  | RunEffects => Some (cycleEffect (setFilesRef (files st) st))
  | OracleSettled k outcome => oracleSettled k outcome st
  | CooldownElapsed k => Some (cooldownElapsed k st)
  end.

Fixpoint run (st : AppState) (evs : list Event) : option AppState :=
  match evs with
  | [] => Some st
  | ev :: rest =>
      match step st ev with
      | Some st' => run st' rest
      | None => None
      end
  end.


(** The events that clear the in-flight guard while a call may still be
    outstanding. *)
Definition interrupts (ev : Event) : bool :=
  match ev with
  | StopProcessing | Restart => true
  | _ => false
  end.

(** What holds of every state reached without such an event. *)
Record DedupInv (st : AppState) : Prop := {
  inv_apart : namesApart (files st);
  inv_named : forall f, f ∈ files st -> status f = completed ->
                exists u t, newName f = Some (u :: t);
  inv_idle : isRequestInFlight st = false ->
             forall b, b ∈ batches st -> phase b = finished;
  inv_single : forall j k bj bk,
      batches st !! j = Some bj -> batches st !! k = Some bk ->
      phase bj <> finished -> phase bk <> finished -> j = k;
  inv_registry : forall k b,
      batches st !! k = Some b -> phase b = awaitingOracle ->
      forall x, x ∈ completedNames (files st) -> x ∈ usedNames b
}.

End Model.

(** ** Concrete scenarios *)

(** The labels ["首页"] and ["搜索"]. *)
Definition SHOUYE : jsstring := [0x9996; 0x9875]%N.
Definition SOUSUO : jsstring := [0x641c; 0x7d22]%N.

Definition labels (i stem e c d : jsstring) : BatchResult :=
  {| res_id := i; res_originalName := stem; english := e; chinese := c;
     domain := d |}.

Definition homeApp (i stem : jsstring) : BatchResult :=
  labels i stem (js "Home") SHOUYE (js "app").

Definition searchWeb (i stem : jsstring) : BatchResult :=
  labels i stem (js "Search") SOUSUO (js "web").

Definition searchGoogle (i stem : jsstring) : BatchResult :=
  labels i stem (js "Search") SOUSUO (js "google.com").

(** A cycle is started for [a.png] and stopped while its call is
    outstanding. *)
Definition stoppedMidCycle : list Event :=
  [ FilesSelected [(js "a", {| name := js "a.png" |})]; RunEffects;
    StartProcessing; RunEffects;
    StopProcessing; RunEffects ].

(** After the stop, [b.png] is added and processing is started again
    before the first call has returned; the second call returns first,
    the first one last. *)
Definition restartRace : list Event :=
  stoppedMidCycle ++
  [ FilesSelected [(js "b", {| name := js "b.png" |})]; RunEffects;
    StartProcessing; RunEffects;
    OracleSettled 1 (inr [homeApp (js "a") (js "a"); searchWeb (js "b") (js "b")]);
    RunEffects;
    OracleSettled 0 (inr [searchWeb (js "a") (js "a")]);
    RunEffects ].

(** Two files without an extension that the oracle labels alike, with a
    dotted domain. *)
Definition noExtensionCollision : list Event :=
  [ FilesSelected [(js "a", {| name := js "icon" |});
                   (js "b", {| name := js "logo" |})]; RunEffects;
    StartProcessing; RunEffects;
    OracleSettled 0 (inr [searchGoogle (js "a") (js "icon");
                          searchGoogle (js "b") (js "logo")]);
    RunEffects ].

(** A client reply that reports a rate limit. *)
Definition rateLimited : JsError :=
  {| message := Some (js "got status: 429 Too Many Requests");
     err_status := Some 429%N |}.


Definition pendingFile (i n : jsstring) : ProcessedFile :=
  {| id := i; originalFile := {| name := n |}; originalName := n;
     newName := None; status := pending; metadata := None |}.

(** A cycle for [a.png] and [b.png] with its call outstanding, [c.png]
    still waiting. *)
Definition sampleQueue : list ProcessedFile :=
  [ withStatus processing (pendingFile (js "a") (js "a.png"));
    withStatus processing (pendingFile (js "b") (js "b.png"));
    pendingFile (js "c") (js "c.png") ].

Definition sampleBatch : Batch :=
  {| chunkIds := {[ js "a" ]} ∪ {[ js "b" ]};
     chunkData := [ chunkDatum (pendingFile (js "a") (js "a.png"));
                    chunkDatum (pendingFile (js "b") (js "b.png")) ];
     itemsToSend := [ (js "a", js "a"); (js "b", js "b") ];
     usedNames := ∅;
     phase := awaitingOracle |}.

Definition sampleState : AppState :=
  {| files := sampleQueue; isProcessing := true; batchTick := 0;
     isRequestInFlight := true; filesRef := sampleQueue;
     batches := [sampleBatch] |}.

(** ** Display and download (ResultsTable.tsx, App.tsx) *)

(** The filter of the results table: ['all' | 'pending' | 'completed' |
    'error']. *)
Inductive TableFilter := showAll | showPending | showCompleted | showError.

Definition filterStatus (flt : TableFilter) : option Status :=
  match flt with
  | showAll => None
  | showPending => Some pending
  | showCompleted => Some completed
  | showError => Some error
  end.

(** [filteredFiles] *)
Definition filteredFiles (flt : TableFilter) (l : list ProcessedFile)
  : list ProcessedFile :=
  match filterStatus flt with
  | None => l
  | Some s => filter (fun f => status f = s) l
  end.

(** [stats] *)
Record Stats := {
  stat_all : nat;
  stat_pending : nat;
  stat_completed : nat;
  stat_error : nat
}.

Definition stats (l : list ProcessedFile) : Stats :=
  {| stat_all := length l;
     stat_pending := length (filter (fun f => status f = pending) l);
     stat_completed := length (filter (fun f => status f = completed) l);
     stat_error := length (filter (fun f => status f = error) l) |}.

(** [completedCount] of App.tsx: what the progress panel shows as
    processed. *)
Definition completedCount (l : list ProcessedFile) : nat :=
  length (filter (fun f => status f = completed \/ status f = error) l).

(** [f.status === 'completed' && f.newName]: a null or empty name is
    falsy. *)
Definition downloadable (f : ProcessedFile) : Prop :=
  status f = completed /\ exists u t, newName f = Some (u :: t).

#[global] Instance downloadable_dec f : Decision (downloadable f).
Proof.
  unfold downloadable. destruct (newName f) as [[|u t]|].
  - right. intros (_ & u & t & [=]).
  - destruct (decide (status f = completed)); [left; eauto|right; tauto].
  - right. intros (_ & u & t & [=]).
Defined.

(** What [handleDownload] does: it refuses because the archiver is not
    loaded, refuses because nothing is completed, or hands the archiver
    one entry [folder.file(newName, originalFile)] per completed file, in
    this order. *)
Inductive DownloadOutcome :=
| ArchiverMissing
| NothingToDownload
| Archive (entries : list (jsstring * File)).

Definition archiveEntry (f : ProcessedFile) : option (jsstring * File) :=
  match newName f with
  | Some (u :: t) => Some (u :: t, originalFile f)
  | _ => None
  end.

Definition handleDownload (hasJSZip : bool) (l : list ProcessedFile)
  : DownloadOutcome :=
  if negb hasJSZip then ArchiverMissing
  else
    let completedFiles := filter downloadable l in
    match completedFiles with
    | [] => NothingToDownload
    | _ :: _ => Archive (omap archiveEntry completedFiles)
    end.

(** ** Record invariants *)

(** What every record of a reachable queue satisfies: its original name is
    the name of its file; when [completed] it has a non-empty new name; it
    has a new name exactly when it has metadata. *)
Definition wellFormed (f : ProcessedFile) : Prop :=
  originalName f = name (originalFile f) /\
  (status f = completed -> exists u t, newName f = Some (u :: t)) /\
  (is_Some (newName f) <-> is_Some (metadata f)).

(** The counter as the loop writes it into a name: nothing for the base
    itself. *)
Definition counterSuffix (k : nat) : jsstring :=
  match k with
  | O => []
  | S _ => UNDERSCORE :: numberToString (N.of_nat k)
  end.

(** The event that adds records. *)
Definition isUpload (ev : Event) : bool :=
  match ev with
  | FilesSelected _ => true
  | _ => false
  end.

(** The events that remove records. *)
Definition removesRecords (ev : Event) : bool :=
  match ev with
  | DeleteFile _ | Restart => true
  | _ => false
  end.

(** What identifies a record for its lifetime: its id, its original name
    and its file. *)
Definition recordKey (f : ProcessedFile) : jsstring * jsstring * File :=
  (id f, originalName f, originalFile f).

(** ** Further scenarios *)

(** Three icons, two of them labelled alike, processed in one cycle. *)
Definition threeIconsRun : list Event :=
  [ FilesSelected [(js "1", {| name := js "icon1.png" |});
                   (js "2", {| name := js "icon2.png" |});
                   (js "3", {| name := js "icon3.png" |})]; RunEffects;
    StartProcessing; RunEffects;
    OracleSettled 0 (inr [homeApp (js "1") (js "icon1");
                          homeApp (js "2") (js "icon2");
                          searchWeb (js "3") (js "icon3")]); RunEffects;
    CooldownElapsed 0; RunEffects ].

(** Three pending records, processing switched on, no call open. *)
Definition readyQueue : list ProcessedFile :=
  [ pendingFile (js "A") (js "a.png"); pendingFile (js "B") (js "b.png");
    pendingFile (js "C") (js "c.png") ].

Definition readyState : AppState :=
  {| files := readyQueue; isProcessing := true; batchTick := 0;
     isRequestInFlight := false; filesRef := readyQueue; batches := [] |}.

(** Two completed records with different names, one still pending. *)
Definition doneQueue : list ProcessedFile :=
  [ withCompleted (js "Home--" ++ SHOUYE ++ js "--app.png")
      (metadataOf (homeApp (js "A") (js "a"))) (pendingFile (js "A") (js "a.png"));
    pendingFile (js "B") (js "b.png");
    withCompleted (js "Search--" ++ SOUSUO ++ js "--web.png")
      (metadataOf (searchWeb (js "C") (js "c"))) (pendingFile (js "C") (js "c.png")) ].

(** * Properties *)

(** ** The sanitizer's steps *)

Lemma isKept_underscore b : isKept b UNDERSCORE = false.
Proof. by destruct b. Qed.

Lemma replaceUnsafe_safe b s :
  Forall (fun u => isSafeUnit b u = true) (replaceUnsafe b s).
Proof.
  unfold replaceUnsafe. induction s as [|u t IH]; cbn; constructor; auto.
  unfold isSafeUnit. destruct (isKept b u) eqn:E; [by rewrite E|].
  by rewrite isKept_underscore.
Qed.


Lemma collapseUnderscores_cons2 u v t :
  collapseUnderscores (u :: v :: t) =
  if (u =? UNDERSCORE) && (v =? UNDERSCORE)
  then collapseUnderscores (v :: t)
  else u :: collapseUnderscores (v :: t).
Proof. reflexivity. Qed.

Lemma noDoubleUnderscore_cons2 u v t :
  noDoubleUnderscore (u :: v :: t) <->
  ~ (u = UNDERSCORE /\ v = UNDERSCORE) /\ noDoubleUnderscore (v :: t).
Proof. reflexivity. Qed.


Lemma collapseUnderscores_head s :
  head (collapseUnderscores s) = head s.
Proof.
  induction s as [|u t IH]; [done|]. destruct t as [|v t]; [done|].
  rewrite collapseUnderscores_cons2.
  destruct (N.eqb_spec u UNDERSCORE), (N.eqb_spec v UNDERSCORE); cbn [andb]; try done.
  rewrite IH. cbn. congruence.
Qed.

Lemma collapseUnderscores_noDouble s :
  noDoubleUnderscore (collapseUnderscores s).
Proof.
  induction s as [|u t IH]; [done|]. destruct t as [|v t]; [done|].
  rewrite collapseUnderscores_cons2.
  destruct ((u =? UNDERSCORE) && (v =? UNDERSCORE)) eqn:E; [exact IH|].
  pose proof (collapseUnderscores_head (v :: t)) as Hh.
  destruct (collapseUnderscores (v :: t)) as [|w r] eqn:Ec; [done|].
  cbn in Hh. injection Hh as ->. apply noDoubleUnderscore_cons2.
  split; [|exact IH]. intros [-> ->]. by cbn in E.
Qed.

Lemma collapseUnderscores_Forall (P : N -> Prop) s :
  Forall P s -> Forall P (collapseUnderscores s).
Proof.
  induction s as [|u t IH]; [done|]. destruct t as [|v t]; [done|].
  rewrite collapseUnderscores_cons2.
  intros Hs. inversion Hs as [|? ? Hu Ht]; subst.
  destruct ((u =? UNDERSCORE) && (v =? UNDERSCORE)); auto.
Qed.

(** The trimming steps return a contiguous part of their argument. *)
Lemma dropFirstIf_suffix c s : dropFirstIf c s `suffix_of` s.
Proof.
  destruct s as [|u t]; cbn; [done|].
  destruct (u =? c); [by apply suffix_cons_r|done].
Qed.

Lemma dropLastIf_prefix c s : dropLastIf c s `prefix_of` s.
Proof.
  induction s as [|u [|v t] IH]; cbn; [done| |].
  - destruct (u =? c); [apply prefix_nil|done].
  - by apply prefix_cons.
Qed.

Lemma dropLeading_suffix c s : dropLeading c s `suffix_of` s.
Proof.
  induction s as [|u t IH]; cbn; [done|].
  destruct (u =? c); [by apply suffix_cons_r|done].
Qed.

Lemma dropTrailing_prefix c s : dropTrailing c s `prefix_of` s.
Proof.
  induction s as [|u t IH]; cbn; [done|].
  destruct (dropTrailing c t) as [|w r].
  - destruct (u =? c); [apply prefix_nil|]. apply prefix_cons, prefix_nil.
  - by apply prefix_cons.
Qed.

Lemma noDoubleUnderscore_app_l s1 s2 :
  noDoubleUnderscore (s1 ++ s2) -> noDoubleUnderscore s1.
Proof.
  induction s1 as [|u [|v t] IH]; cbn; [done..|].
  intros [Hn Ht]. split; [done|]. by apply IH.
Qed.

Lemma noDoubleUnderscore_app_r s1 s2 :
  noDoubleUnderscore (s1 ++ s2) -> noDoubleUnderscore s2.
Proof.
  induction s1 as [|u t IH]; [done|].
  intros H. apply IH. destruct t as [|v t]; cbn in *.
  - destruct s2; [done|]. by destruct H.
  - by destruct H.
Qed.

Lemma noDoubleUnderscore_prefix s1 s2 :
  s1 `prefix_of` s2 -> noDoubleUnderscore s2 -> noDoubleUnderscore s1.
Proof. intros [k ->]. apply noDoubleUnderscore_app_l. Qed.

Lemma noDoubleUnderscore_suffix s1 s2 :
  s1 `suffix_of` s2 -> noDoubleUnderscore s2 -> noDoubleUnderscore s1.
Proof. intros [k ->]. apply noDoubleUnderscore_app_r. Qed.

Lemma Forall_prefix (P : N -> Prop) (s1 s2 : jsstring) :
  s1 `prefix_of` s2 -> Forall P s2 -> Forall P s1.
Proof. intros [k ->] H. by apply Forall_app in H as [? _]. Qed.

Lemma Forall_suffix (P : N -> Prop) (s1 s2 : jsstring) :
  s1 `suffix_of` s2 -> Forall P s2 -> Forall P s1.
Proof. intros [k ->] H. by apply Forall_app in H as [_ ?]. Qed.

Lemma head_prefix c (s1 s2 : jsstring) :
  s1 `prefix_of` s2 -> head s2 <> Some c -> head s1 <> Some c.
Proof. intros [k ->]. by destruct s1. Qed.

Lemma last_suffix c (s1 s2 : jsstring) :
  s1 `suffix_of` s2 -> last s2 <> Some c -> last s1 <> Some c.
Proof.
  intros [k ->]. destruct s1 as [|u t] using rev_ind; [done|].
  by rewrite app_assoc, !last_snoc.
Qed.





Lemma head_dropLeading c s : head (dropLeading c s) <> Some c.
Proof.
  induction s as [|u t IH]; cbn; [done|].
  destruct (N.eqb_spec u c); [done|]. cbn. congruence.
Qed.

Lemma last_dropTrailing c s : last (dropTrailing c s) <> Some c.
Proof.
  induction s as [|u t IH]; [done|].
  change (dropTrailing c (u :: t))
    with (match dropTrailing c t with
          | [] => if u =? c then [] else [u]
          | r => u :: r
          end).
  destruct (dropTrailing c t) as [|w r].
  - destruct (N.eqb_spec u c); [done|]. cbn. congruence.
  - by rewrite last_cons_cons.
Qed.

Lemma head_dropFirstIf_underscore s :
  noDoubleUnderscore s -> head (dropFirstIf UNDERSCORE s) <> Some UNDERSCORE.
Proof.
  destruct s as [|u t]; [done|]. cbn [dropFirstIf].
  destruct (N.eqb_spec u UNDERSCORE) as [->|Hu]; [|cbn; congruence].
  destruct t as [|v t]; [done|]. rewrite noDoubleUnderscore_cons2.
  intros [Hn _]. cbn. intros [= ->]. tauto.
Qed.

Lemma dropLastIf_nil c s : dropLastIf c s = [] -> s = [] \/ s = [c].
Proof.
  destruct s as [|u [|v t]]; cbn; [by left| |done].
  destruct (N.eqb_spec u c) as [->|]; [by right|done].
Qed.

Lemma last_dropLastIf_underscore s :
  noDoubleUnderscore s -> last (dropLastIf UNDERSCORE s) <> Some UNDERSCORE.
Proof.
  induction s as [|u t IH]; [done|]. destruct t as [|v t].
  - intros _. cbn. destruct (N.eqb_spec u UNDERSCORE); [done|]. cbn. congruence.
  - rewrite noDoubleUnderscore_cons2. intros [Hn Ht].
    change (dropLastIf UNDERSCORE (u :: v :: t))
      with (u :: dropLastIf UNDERSCORE (v :: t)).
    destruct (dropLastIf UNDERSCORE (v :: t)) as [|w r] eqn:E.
    + apply dropLastIf_nil in E as [E|E]; [done|]. injection E as -> ->.
      cbn. intros [= ->]. tauto.
    + rewrite last_cons_cons. by apply IH.
Qed.



(** What the steps before the dot trimming establish. *)
Lemma trimmed_underscores b s :
  let r := trimUnderscore (collapseUnderscores (replaceUnsafe b s)) in
  Forall (fun u => isSafeUnit b u = true) r /\ noDoubleUnderscore r /\
  head r <> Some UNDERSCORE /\ last r <> Some UNDERSCORE.
Proof.
  cbn zeta. unfold trimUnderscore.
  set (c := collapseUnderscores (replaceUnsafe b s)).
  assert (Hc : noDoubleUnderscore c) by apply collapseUnderscores_noDouble.
  assert (Hu : Forall (fun u => isSafeUnit b u = true) c)
    by apply collapseUnderscores_Forall, replaceUnsafe_safe.
  pose proof (dropFirstIf_suffix UNDERSCORE c) as Hs.
  pose proof (dropLastIf_prefix UNDERSCORE (dropFirstIf UNDERSCORE c)) as Hp.
  assert (Hc' : noDoubleUnderscore (dropFirstIf UNDERSCORE c))
    by eauto using noDoubleUnderscore_suffix.
  repeat split.
  - eauto using Forall_prefix, Forall_suffix.
  - eauto using noDoubleUnderscore_prefix.
  - eapply head_prefix; [exact Hp|]. by apply head_dropFirstIf_underscore.
  - by apply last_dropLastIf_underscore.
Qed.



Lemma Unknown_stable b : stable b Unknown.
Proof.
  split; [|cbn; intuition discriminate|done|done|done].
  unfold Unknown. cbn. repeat constructor; by destruct b.
Qed.

(** The result of [sanitizePart] is the fallback token or the non-empty
    outcome of the steps. *)
Lemma sanitizePart_cases str b :
  sanitizePart str b = Unknown \/
  exists s, str = Some s /\ sanitizeSteps b s <> [] /\
            sanitizePart str b = sanitizeSteps b s.
Proof.
  destruct str as [[|u t]|]; [by left| |by left]. cbn [sanitizePart].
  destruct (sanitizeSteps b (u :: t)) as [|w r] eqn:E; [by left|].
  right. exists (u :: t). by rewrite E.
Qed.








(** ** The oracle client *)

Close Scope N_scope.

Section ClientProperties.

Variable JSON_parse : jsstring -> JsError + list RawItem.

(** The waits of [n] retries that start with [retries] left. *)
Lemma retryLoop_spec retries replies :
  let waits := fst (retryLoop JSON_parse retries replies) in
  let out := snd (retryLoop JSON_parse retries replies) in
  let n := length waits in
  n <= retries /\
  waits = (fun i => waitTime (retries - i)) <$> seq 0 n /\
  (forall j, j < n -> failsTransiently JSON_parse (replies j) = true) /\
  out = tryBody JSON_parse (replies n) /\
  (n < retries -> failsTransiently JSON_parse (replies n) = false).
Proof.
  revert replies. induction retries as [|r IH]; intros replies; cbn zeta.
  - cbn [retryLoop]. destruct (tryBody JSON_parse (replies 0)) eqn:E;
      cbn; repeat split; auto; lia.
  - cbn [retryLoop]. unfold failsTransiently.
    destruct (tryBody JSON_parse (replies 0)) as [e|res] eqn:E.
    + destruct (isTransient e) eqn:Et.
      * specialize (IH (fun n => replies (S n))). cbn zeta in IH.
        destruct IH as (Hle & Hw & Ht & Ho & Hs).
        set (rest := retryLoop JSON_parse r (fun n => replies (S n))) in *.
        cbn [fst snd length]. repeat split.
        -- lia.
        -- cbn [seq fmap list_fmap]. f_equal.
           rewrite Hw at 1. rewrite <- seq_shift, <- list_fmap_compose.
           apply list_fmap_ext. intros _ i _. cbn. reflexivity.
        -- intros [|j] Hj; [by rewrite E|]. apply Ht. lia.
        -- exact Ho.
        -- intros Hlt. apply Hs. lia.
      * cbn. rewrite E, Et. repeat split; auto; lia.
    + cbn. rewrite E. repeat split; auto; lia.
Qed.

Lemma retries_determined replies n k :
  (forall j, j < n -> failsTransiently JSON_parse (replies j) = true) ->
  (n < 3 -> failsTransiently JSON_parse (replies n) = false) ->
  n <= 3 -> k <= 3 ->
  (forall j, j < k -> failsTransiently JSON_parse (replies j) = true) ->
  (k < 3 -> failsTransiently JSON_parse (replies k) = false) ->
  n = k.
Proof.
  intros Hn Hn' Hn3 Hk3 Hk Hk'.
  destruct (Nat.lt_trichotomy n k) as [Hlt|[->|Hgt]]; [|done|].
  - rewrite Hk in Hn' by done. discriminate Hn'. lia.
  - rewrite Hn in Hk' by done. discriminate Hk'. lia.
Qed.

Lemma analyzeFilenamesBatch_spec replies :
  let waits := fst (analyzeFilenamesBatch JSON_parse replies) in
  let out := snd (analyzeFilenamesBatch JSON_parse replies) in
  let n := length waits in
  n <= 3 /\
  waits = take n retrySchedule /\
  (forall j, j < n -> failsTransiently JSON_parse (replies j) = true) /\
  out = tryBody JSON_parse (replies n) /\
  (n < 3 -> failsTransiently JSON_parse (replies n) = false).
Proof.
  cbn zeta. unfold analyzeFilenamesBatch.
  pose proof (retryLoop_spec 3 replies) as H. cbn zeta in H.
  set (waits := fst (retryLoop JSON_parse 3 replies)) in *.
  destruct H as (Hle & Hw & Ht & Ho & Hs).
  repeat split; try done.
  rewrite Hw at 1.
  destruct (length waits) as [|[|[|[|n]]]]; [done..|lia].
Qed.

(** The number of retries is fixed by the replies. *)
Lemma analyzeFilenamesBatch_retries replies k :
  k <= 3 ->
  (forall j, j < k -> failsTransiently JSON_parse (replies j) = true) ->
  (k < 3 -> failsTransiently JSON_parse (replies k) = false) ->
  analyzeFilenamesBatch JSON_parse replies
  = (take k retrySchedule, tryBody JSON_parse (replies k)).
Proof.
  intros Hk Hbefore Hlast.
  destruct (analyzeFilenamesBatch_spec replies) as (Hle & Hw & Ht & Ho & Hs).
  cbn zeta in *.
  assert (length (fst (analyzeFilenamesBatch JSON_parse replies)) = k) as Hn
    by (apply (retries_determined replies); auto).
  rewrite Hn in Hw, Ho.
  destruct (analyzeFilenamesBatch JSON_parse replies) as [w o].
  cbn in *. by subst.
Qed.


(** The client on an empty response text: after [k] transient failures a
    response whose text is undefined or empty makes the client return
    the empty list, not raise. *)
Lemma analyzeFilenamesBatch_empty_text replies k :
  k <= 3 ->
  (forall j, j < k -> failsTransiently JSON_parse (replies j) = true) ->
  replies k = Responds None \/ replies k = Responds (Some []) ->
  analyzeFilenamesBatch JSON_parse replies = (take k retrySchedule, inr []).
Proof.
  intros Hk Hbefore Hempty.
  assert (Hbody : tryBody JSON_parse (replies k) = inr []).
  { by destruct Hempty as [-> | ->]. }
  rewrite (analyzeFilenamesBatch_retries replies k); [by rewrite Hbody|done..|].
  intros _. unfold failsTransiently. by rewrite Hbody.
Qed.

End ClientProperties.

(** ** Name resolution *)

Lemma uint_units_inj d1 d2 : uint_units d1 = uint_units d2 -> d1 = d2.
Proof.
  revert d2. induction d1 as [|d1 IH|d1 IH|d1 IH|d1 IH|d1 IH|d1 IH|d1 IH|d1 IH|d1 IH|d1 IH];
    intros [] H; cbn in H; try discriminate H; try done;
    injection H as H; f_equal; by apply IH.
Qed.

Lemma numberToString_inj a b : numberToString a = numberToString b -> a = b.
Proof.
  intros H. by apply DecimalN.Unsigned.to_uint_inj, uint_units_inj.
Qed.

Lemma uint_units_digits d :
  Forall (fun u => (48 <= u <= 57)%N) (uint_units d).
Proof. induction d; cbn; constructor; (lia || done). Qed.

(** The loop body inserts the counter between two fixed parts of the
    base name. *)
Lemma suffixedName_split base :
  exists p s, base = p ++ s /\
    forall c, suffixedName base c = p ++ UNDERSCORE :: numberToString c ++ s.
Proof.
  unfold suffixedName, substringTo, substringFrom.
  destruct (lastIndexOf DOT base =? -1)%Z.
  - exists base, []. split; [by rewrite app_nil_r|].
    intros c. by rewrite app_nil_r.
  - exists (take (Z.to_nat (lastIndexOf DOT base)) base),
           (drop (Z.to_nat (lastIndexOf DOT base)) base).
    split; [by rewrite take_drop|done].
Qed.

Lemma lastIndexOf_absent c s : c ∉ s -> lastIndexOf c s = (-1)%Z.
Proof.
  induction s as [|u t IH]; [done|]. rewrite not_elem_of_cons. intros [Hu Ht].
  cbn. rewrite (IH Ht). cbn. destruct (N.eqb_spec u c); congruence.
Qed.

Lemma lastIndexOf_last c p e :
  c ∉ e -> lastIndexOf c (p ++ c :: e) = Z.of_nat (length p).
Proof.
  intros He. induction p as [|u p IH].
  - cbn. rewrite (lastIndexOf_absent _ _ He). cbn. by rewrite N.eqb_refl.
  - cbn [app lastIndexOf length]. rewrite IH.
    destruct (Z.eqb_spec (Z.of_nat (length p)) (-1)); lia.
Qed.

Lemma lastIndexOf_none c s : lastIndexOf c s = (-1)%Z -> c ∉ s.
Proof.
  induction s as [|u t IH]; [intros _; apply not_elem_of_nil|].
  cbn [lastIndexOf].
  destruct (Z.eqb_spec (lastIndexOf c t) (-1)) as [E|E].
  - destruct (N.eqb_spec u c) as [->|Hu]; [done|]. intros _.
    rewrite not_elem_of_cons. split; [congruence|by apply IH].
  - intros H. assert (0 <= lastIndexOf c t)%Z; [|lia].
    clear IH H. induction t as [|v t IHt]; [done|]. cbn [lastIndexOf] in *.
    destruct (Z.eqb_spec (lastIndexOf c t) (-1)) as [E'|E'].
    + destruct (v =? c)%N; [lia|done].
    + specialize (IHt E'). lia.
Qed.

Lemma lastIndexOf_range c s : (-1 <= lastIndexOf c s)%Z.
Proof.
  induction s as [|u t IH]; [done|]. cbn [lastIndexOf].
  destruct (Z.eqb_spec (lastIndexOf c t) (-1)); [|lia].
  destruct (u =? c)%N; lia.
Qed.

(** After the last occurrence there is none. *)
Lemma lastIndexOf_after c s :
  lastIndexOf c s <> (-1)%Z ->
  c ∉ drop (Z.to_nat (lastIndexOf c s + 1)) s.
Proof.
  induction s as [|u t IH]; [done|]. cbn [lastIndexOf].
  pose proof (lastIndexOf_range c t) as Hr.
  destruct (Z.eqb_spec (lastIndexOf c t) (-1)) as [E|E].
  - destruct (N.eqb_spec u c) as [->|]; [|done]. intros _.
    change (Z.to_nat (0 + 1)) with 1. change (drop 1 (c :: t)) with (drop 0 t).
    rewrite drop_0.
    by apply lastIndexOf_none.
  - intros _.
    replace (Z.to_nat (lastIndexOf c t + 1 + 1))
      with (S (Z.to_nat (lastIndexOf c t + 1))) by lia.
    change (drop (S ?n) (u :: t)) with (drop n t). by apply IH.
Qed.

(** The extension split off an original name holds no dot. *)
Lemma chunkDatum_ext_no_dot f : DOT ∉ ext (chunkDatum f).
Proof.
  unfold chunkDatum. cbn [ext].
  destruct (Z.eqb_spec (lastIndexOf DOT (originalName f)) (-1)) as [E|E].
  - apply not_elem_of_nil.
  - unfold substringFrom. by apply lastIndexOf_after.
Qed.

(** With a dot-free extension behind the last dot, the counter stands
    immediately before the extension; without any dot it stands at the
    end. *)
Lemma suffixedName_before_extension stem e n :
  DOT ∉ e ->
  suffixedName (stem ++ DOT :: e) n
  = stem ++ UNDERSCORE :: numberToString n ++ DOT :: e.
Proof.
  intros He. unfold suffixedName, substringTo, substringFrom.
  rewrite (lastIndexOf_last _ _ _ He).
  destruct (Z.eqb_spec (Z.of_nat (length stem)) (-1)); [lia|].
  rewrite Nat2Z.id. by rewrite take_app_length, drop_app_length.
Qed.

Lemma suffixedName_no_dot base n :
  DOT ∉ base -> suffixedName base n = base ++ UNDERSCORE :: numberToString n.
Proof.
  intros Hb. unfold suffixedName. by rewrite (lastIndexOf_absent _ _ Hb).
Qed.

(** A unit-wise case mapping that fixes the ASCII digits never identifies
    two candidates. *)
Lemma unitwise_candidate_inj (f : N -> N) :
  (forall u, (48 <= u <= 57)%N -> f u = u) ->
  forall base j k, f <$> candidate base j = f <$> candidate base k -> j = k.
Proof.
  intros Hf base j k.
  destruct (suffixedName_split base) as (p & s & Hb & Hs).
  assert (Hnum : forall c, f <$> numberToString c = numberToString c).
  { intros c. unfold numberToString.
    induction (uint_units_digits (N.to_uint c)) as [|u t Hu _ IH]; [done|].
    cbn. by rewrite IH, (Hf u Hu). }
  destruct j as [|j], k as [|k]; cbn [candidate]; rewrite ?Hs; [done| | |].
  - rewrite Hb at 1. intros H. apply (f_equal length) in H.
    rewrite !length_fmap, !length_app in H. cbn in H.
    rewrite length_app in H. lia.
  - rewrite Hb at 1. intros H. apply (f_equal length) in H.
    rewrite !length_fmap, !length_app in H. cbn in H.
    rewrite length_app in H. lia.
  - rewrite !fmap_app, !fmap_cons, !fmap_app, !Hnum.
    intros H. apply app_inv_head in H. injection H as H.
    apply app_inv_tail, numberToString_inj in H. lia.
Qed.

Lemma asciiLower_candidate_inj base j k :
  asciiLower (candidate base j) = asciiLower (candidate base k) -> j = k.
Proof.
  apply unitwise_candidate_inj. intros u Hu. unfold asciiLowerUnit.
  destruct (N.leb_spec 65 u), (N.leb_spec u 90); cbn; lia.
Qed.

Section Resolution.

Variable toLowerCase : jsstring -> jsstring.

(** The loop returns the first candidate whose lower-case form is not
    registered, when the fuel reaches it. *)
Lemma uniqueLoop_first_free used base m :
  forall k fuel,
    (forall j, k <= j < k + m -> toLowerCase (candidate base j) ∈ used) ->
    toLowerCase (candidate base (k + m)) ∉ used ->
    m <= fuel ->
    uniqueLoop toLowerCase fuel used base (candidate base k) (N.of_nat (S k))
    = Some (candidate base (k + m)).
Proof.
  induction m as [|m IH]; intros k fuel Hused Hfree Hfuel.
  - rewrite Nat.add_0_r in Hfree |- *.
    destruct fuel; cbn [uniqueLoop]; by rewrite decide_False.
  - destruct fuel as [|fuel]; [lia|]. cbn [uniqueLoop].
    rewrite decide_True by (apply Hused; lia).
    replace (N.of_nat (S k) + 1)%N with (N.of_nat (S (S k))) by lia.
    change (suffixedName base (N.of_nat (S k))) with (candidate base (S k)).
    replace (k + S m) with (S k + m) in * by lia.
    apply IH; [|done|lia]. intros j Hj. apply Hused. lia.
Qed.

Lemma uniqueName_first_free used base m :
  (forall j, j < m -> toLowerCase (candidate base j) ∈ used) ->
  toLowerCase (candidate base m) ∉ used ->
  m <= size used ->
  uniqueName toLowerCase used base = Some (candidate base m).
Proof.
  intros Hused Hfree Hm. unfold uniqueName.
  apply (uniqueLoop_first_free used base m 0 (size used)); [|done..].
  intros j Hj. apply Hused. lia.
Qed.

(** Either the first [n] candidates are all registered, or there is a
    first free one among them. *)
Lemma first_free_below (used : gset jsstring) base n :
  (forall j, j < n -> toLowerCase (candidate base j) ∈ used) \/
  (exists m, m < n /\ (toLowerCase (candidate base m) ∉ used) /\
             forall j, j < m -> toLowerCase (candidate base j) ∈ used).
Proof.
  induction n as [|n [IH|(m & Hm & Hfree & Hbelow)]].
  - left. lia.
  - destruct (decide (toLowerCase (candidate base n) ∈ used)) as [Hin|Hout].
    + left. intros j Hj. destruct (decide (j = n)) as [->|]; [done|].
      apply IH. lia.
    + right. exists n. auto.
  - right. exists m. split; [lia|done].
Qed.

(** [toLowerCase] keeps the candidates of a base name apart. *)
Hypothesis lower_inj : forall base j k,
    toLowerCase (candidate base j) = toLowerCase (candidate base k) -> j = k.

Lemma exists_first_free (used : gset jsstring) base :
  exists m, m <= size used /\ (toLowerCase (candidate base m) ∉ used) /\
            forall j, j < m -> toLowerCase (candidate base j) ∈ used.
Proof using lower_inj.
  destruct (first_free_below used base (S (size used)))
    as [Hall|(m & Hm & Hfree & Hbelow)].
  - exfalso.
    set (l := (fun j => toLowerCase (candidate base j)) <$> seq 0 (S (size used))).
    assert (Hnd : NoDup l).
    { apply NoDup_fmap_2_strong; [|apply NoDup_seq].
      intros j k _ _ H. by apply lower_inj in H. }
    assert (Hsub : list_to_set l ⊆ used).
    { intros x Hx. apply elem_of_list_to_set in Hx.
      apply list_elem_of_fmap in Hx as (j & -> & Hj).
      apply elem_of_seq in Hj. apply Hall. lia. }
    apply subseteq_size in Hsub. rewrite size_list_to_set in Hsub by done.
    unfold l in Hsub. rewrite length_fmap, length_seq in Hsub. lia.
  - exists m. split; [lia|done].
Qed.

(** The loop ends, on the first free candidate. *)
Lemma uniqueName_total (used : gset jsstring) base :
  exists m, uniqueName toLowerCase used base = Some (candidate base m) /\
            (toLowerCase (candidate base m) ∉ used) /\
            forall j, j < m -> toLowerCase (candidate base j) ∈ used.
Proof using lower_inj.
  destruct (exists_first_free used base) as (m & Hm & Hfree & Hbelow).
  exists m. split; [|done]. by apply uniqueName_first_free.
Qed.

End Resolution.

(** ** The merge step *)

Section MergeProperties.

Variable toLowerCase : jsstring -> jsstring.

(** With no result at all the success branch does what the [catch]
    branch does. *)
Lemma mergeFrom_no_results b used prev :
  mergeFrom toLowerCase b [] used prev = Some (failChunk (chunkIds b) prev, used).
Proof.
  induction prev as [|file rest IH]; [done|].
  cbn [mergeFrom]. unfold mergeFile, findResult. cbn [List.find].
  unfold failChunk in *. rewrite fmap_cons.
  destruct (decide (id file ∈ chunkIds b)); by rewrite IH.
Qed.

Lemma mergeResults_no_results b prev :
  mergeResults toLowerCase b [] prev = Some (failChunk (chunkIds b) prev).
Proof. unfold mergeResults. by rewrite mergeFrom_no_results. Qed.

Lemma failChunk_lookup ids prev i f :
  prev !! i = Some f ->
  failChunk ids prev !! i
  = Some (if decide (id f ∈ ids) then withStatus error f else f).
Proof. intros H. unfold failChunk. by rewrite list_lookup_fmap, H. Qed.

(** A name the loop returns is free in the registry. *)
Lemma uniqueLoop_free fuel used base :
  forall u c r,
    uniqueLoop toLowerCase fuel used base u c = Some r -> toLowerCase r ∉ used.
Proof.
  induction fuel as [|fuel IH]; intros u c r; cbn [uniqueLoop];
    destruct (decide (toLowerCase u ∈ used)); try done.
  - by intros [= <-].
  - apply IH.
  - by intros [= <-].
Qed.

Lemma completedNames_cons f l :
  completedNames toLowerCase (f :: l)
  = match completedName toLowerCase f with
    | Some x => x :: completedNames toLowerCase l
    | None => completedNames toLowerCase l
    end.
Proof. done. Qed.

Lemma outsideChunk_cons b f l :
  outsideChunk b (f :: l)
  = if decide (id f ∈ chunkIds b) then outsideChunk b l else f :: outsideChunk b l.
Proof.
  unfold outsideChunk. rewrite filter_cons.
  destruct (decide (id f ∈ chunkIds b)), (decide (id f ∉ chunkIds b)); tauto.
Qed.

(** What one callback does to the registry and to the record's name. *)
Lemma mergeFile_names b results used file file' used' :
  mergeFile toLowerCase b results used file = Some (file', used') ->
  used ⊆ used' /\
  (id file ∉ chunkIds b -> file' = file /\ used' = used) /\
  (id file ∈ chunkIds b ->
   forall x, completedName toLowerCase file' = Some x -> (x ∉ used) /\ x ∈ used').
Proof.
  unfold mergeFile. destruct (decide (id file ∈ chunkIds b)) as [Hin|Hout].
  - destruct (findResult results file) as [res|].
    + destruct (uniqueName toLowerCase used (baseFinalNameOf b res file))
        as [unique|] eqn:E; [|done].
      intros [= <- <-]. split; [set_solver|]. split; [done|].
      intros _ x. unfold completedName. cbn. intros [= <-].
      split; [by apply uniqueLoop_free in E|set_solver].
    + intros [= <- <-]. split; [done|]. split; [done|]. by intros _ x.
  - intros [= <- <-]. by repeat split.
Qed.

(** One merge keeps the names apart when the registry it starts from
    holds the names of the [completed] records outside the chunk. *)
Lemma mergeFrom_apart b results prev :
  forall used l used',
    mergeFrom toLowerCase b results used prev = Some (l, used') ->
    NoDup (completedNames toLowerCase (outsideChunk b prev)) ->
    (forall x, x ∈ completedNames toLowerCase (outsideChunk b prev) -> x ∈ used) ->
    NoDup (completedNames toLowerCase l) /\
    (forall x, x ∈ completedNames toLowerCase l ->
       x ∈ completedNames toLowerCase (outsideChunk b prev) \/ x ∉ used).
Proof.
  induction prev as [|file rest IH]; intros used l used'.
  - intros [= <- <-] _ _. split; [constructor|]. intros x Hx.
    by apply not_elem_of_nil in Hx.
  - cbn [mergeFrom].
    destruct (mergeFile toLowerCase b results used file) as [[file' used1]|] eqn:Ef;
      [|done].
    destruct (mergeFrom toLowerCase b results used1 rest) as [[l' used2]|] eqn:Er;
      [|done].
    intros [= <- <-]. apply mergeFile_names in Ef as (Hsub & Hout & Hin).
    rewrite outsideChunk_cons, (completedNames_cons file').
    destruct (decide (id file ∈ chunkIds b)) as [Hid|Hid].
    + intros Hnd Hreg.
      destruct (IH _ _ _ Er Hnd) as (Hnd' & Hfrom).
      { intros x Hx. by apply Hsub, Hreg. }
      destruct (completedName toLowerCase file') as [x0|] eqn:Ex.
      * destruct (Hin Hid x0 eq_refl) as (Hfree & Hx0). split.
        -- apply NoDup_cons. split; [|done]. intros Hx.
           destruct (Hfrom _ Hx) as [Ho|Hn]; [by apply Hreg in Ho|done].
        -- intros x [->|Hx]%elem_of_cons; [by right|].
           destruct (Hfrom _ Hx) as [Ho|Hn]; [by left|].
           right. intros Hu. by apply Hn, Hsub.
      * split; [done|]. intros x Hx.
        destruct (Hfrom _ Hx) as [Ho|Hn]; [by left|].
        right. intros Hu. by apply Hn, Hsub.
    + destruct (Hout Hid) as (-> & ->). rewrite (completedNames_cons file).
      destruct (completedName toLowerCase file) as [x0|] eqn:Ex.
      * intros [Hx0 Hnd]%NoDup_cons Hreg.
        destruct (IH _ _ _ Er Hnd) as (Hnd' & Hfrom).
        { intros x Hx. apply Hreg. by right. }
        split.
        -- apply NoDup_cons. split; [|done]. intros Hx.
           destruct (Hfrom _ Hx) as [Ho|Hn]; [done|]. apply Hn, Hreg. by left.
        -- intros x [->|Hx]%elem_of_cons; [left; by left|].
           destruct (Hfrom _ Hx) as [Ho|Hn]; [left; by right|by right].
      * intros Hnd Hreg. by apply (IH _ _ _ Er).
Qed.

Lemma mergeResults_apart b results prev l :
  mergeResults toLowerCase b results prev = Some l ->
  namesApart toLowerCase (outsideChunk b prev) ->
  (forall x, x ∈ completedNames toLowerCase (outsideChunk b prev) ->
     x ∈ usedNames b) ->
  namesApart toLowerCase l.
Proof.
  unfold mergeResults, namesApart.
  destruct (mergeFrom toLowerCase b results (usedNames b) prev) as [[l' u]|] eqn:E;
    [|done].
  intros [= <-] Hnd Hreg. by destruct (mergeFrom_apart _ _ _ _ _ _ E Hnd Hreg).
Qed.

Hypothesis lower_inj : forall base j k,
    toLowerCase (candidate base j) = toLowerCase (candidate base k) -> j = k.

Lemma mergeFile_outcome b results used file :
  exists file' used',
    mergeFile toLowerCase b results used file = Some (file', used') /\
    used ⊆ used' /\
    mergeOutcome toLowerCase b results used file file'.
Proof using lower_inj.
  unfold mergeFile, mergeOutcome.
  destruct (decide (id file ∈ chunkIds b)); [|by eauto].
  destruct (findResult results file) as [res|]; [|by eauto].
  destruct (uniqueName_total toLowerCase lower_inj used (baseFinalNameOf b res file))
    as (m & -> & Hfree & Hbelow).
  do 2 eexists. split; [done|]. split; [set_solver|]. eauto.
Qed.

(** The merge returns, record by record in queue order, each record
    handled against a registry that contains the cycle's. *)
Lemma mergeFrom_outcome b results prev :
  forall used,
  exists l used',
    mergeFrom toLowerCase b results used prev = Some (l, used') /\
    Forall2 (fun file file' =>
               exists u, used ⊆ u /\ mergeOutcome toLowerCase b results u file file')
            prev l.
Proof using lower_inj.
  induction prev as [|file rest IH]; intros used.
  - exists [], used. by split.
  - destruct (mergeFile_outcome b results used file)
      as (file' & used1 & Hf & Hsub & Hout).
    destruct (IH used1) as (l & used2 & Hr & Hall).
    exists (file' :: l), used2. cbn [mergeFrom]. rewrite Hf, Hr.
    split; [done|]. constructor; [by eauto|].
    eapply Forall2_impl; [exact Hall|].
    intros x y (u & Hu & Ho). exists u. split; [set_solver|done].
Qed.

Lemma mergeResults_outcome b results prev :
  exists l,
    mergeResults toLowerCase b results prev = Some l /\
    Forall2 (fun file file' =>
               exists u, usedNames b ⊆ u /\
                         mergeOutcome toLowerCase b results u file file')
            prev l.
Proof using lower_inj.
  destruct (mergeFrom_outcome b results prev (usedNames b)) as (l & u & H & Hall).
  exists l. unfold mergeResults. by rewrite H.
Qed.


End MergeProperties.

(** ** The dedup invariant on runs without stop and restart *)

Section DedupInvariant.

Variable toLowerCase : jsstring -> jsstring.

Lemma completedNames_app l1 l2 :
  completedNames toLowerCase (l1 ++ l2)
  = completedNames toLowerCase l1 ++ completedNames toLowerCase l2.
Proof. unfold completedNames. apply omap_app. Qed.

Lemma completedName_demoted s f :
  s <> completed -> completedName toLowerCase (withStatus s f) = None.
Proof. intros Hs. unfold completedName. cbn. by rewrite decide_False. Qed.

Lemma completedNames_demotes g l :
  demotes g ->
  completedNames toLowerCase (g <$> l) `sublist_of` completedNames toLowerCase l.
Proof.
  intros Hg. induction l as [|f t IH]; [done|].
  rewrite fmap_cons, !completedNames_cons.
  destruct (Hg f) as [->|(s & Hs & ->)].
  - destruct (completedName toLowerCase f); [by apply sublist_skip|done].
  - rewrite completedName_demoted by done.
    destruct (completedName toLowerCase f); [by apply sublist_cons|done].
Qed.

Lemma completedNames_filter (P : ProcessedFile -> Prop)
    `{!forall f, Decision (P f)} l :
  completedNames toLowerCase (filter P l) `sublist_of` completedNames toLowerCase l.
Proof.
  induction l as [|f t IH]; [done|].
  rewrite filter_cons, completedNames_cons. destruct (decide (P f)).
  - rewrite completedNames_cons.
    destruct (completedName toLowerCase f); [by apply sublist_skip|done].
  - destruct (completedName toLowerCase f); [by apply sublist_cons|done].
Qed.

Lemma completedNames_outside b l :
  completedNames toLowerCase (outsideChunk b l)
    `sublist_of` completedNames toLowerCase l.
Proof. unfold outsideChunk. apply completedNames_filter. Qed.

Lemma sublist_elem_of (l1 l2 : list jsstring) x :
  l1 `sublist_of` l2 -> x ∈ l1 -> x ∈ l2.
Proof. intros Hs Hx. by eapply elem_of_sublist. Qed.

Lemma completedNames_elem l x :
  x ∈ completedNames toLowerCase l <->
  exists f n, f ∈ l /\ status f = completed /\ newName f = Some n /\
              x = toLowerCase n.
Proof.
  unfold completedNames. rewrite list_elem_of_omap. unfold completedName.
  split.
  - intros (f & Hf & Hn). destruct (decide (status f = completed)); [|done].
    destruct (newName f) as [n|] eqn:E; [|done]. injection Hn as <-.
    by exists f, n.
  - intros (f & n & Hf & Hs & Hn & ->). exists f. split; [done|].
    by rewrite decide_True, Hn.
Qed.

Lemma named_demotes g (l : list ProcessedFile) :
  demotes g ->
  (forall f, f ∈ l -> status f = completed -> exists u t, newName f = Some (u :: t)) ->
  forall f, f ∈ g <$> l -> status f = completed ->
            exists u t, newName f = Some (u :: t).
Proof.
  intros Hg Hl f' Hin Hs. apply list_elem_of_fmap in Hin as (f & -> & Hf).
  destruct (Hg f) as [E|(s & Hne & E)]; rewrite E in *; [by apply Hl|].
  by cbn in Hs.
Qed.

Lemma healZombies_demotes :
  demotes (fun f => if decide (status f = processing) then withStatus error f else f).
Proof.
  intros f. destruct (decide (status f = processing)); [|by left].
  right. by exists error.
Qed.

Lemma markChunk_demotes (ids : gset jsstring) :
  demotes (fun f => if decide (id f ∈ ids) then withStatus processing f
                    else if decide (status f = processing) then withStatus error f
                    else f).
Proof.
  intros f. destruct (decide (id f ∈ ids)); [right; by exists processing|].
  destruct (decide (status f = processing)); [|by left].
  right. by exists error.
Qed.

Lemma failChunk_demotes (ids : gset jsstring) :
  demotes (fun f => if decide (id f ∈ ids) then withStatus error f else f).
Proof.
  intros f. destruct (decide (id f ∈ ids)); [|by left].
  right. by exists error.
Qed.

(** The registry built at the start of a cycle holds the lower-case name
    of every [completed] record with a non-empty name. *)
Lemma collectUsedNames_elem l f u t :
  f ∈ l -> status f = completed -> newName f = Some (u :: t) ->
  toLowerCase (u :: t) ∈ collectUsedNames toLowerCase l.
Proof.
  unfold collectUsedNames. intros Hf Hs Hn.
  set (g := fun (acc : gset jsstring) (f : ProcessedFile) =>
              match newName f with
              | Some (u :: t) =>
                  if decide (status f = completed)
                  then {[ toLowerCase (u :: t) ]} ∪ acc else acc
              | _ => acc
              end).
  assert (Hmono : forall l acc x, x ∈ acc -> x ∈ foldl g acc l).
  { clear. intros l. induction l as [|f l IH]; intros acc x Hx; [done|].
    cbn. apply IH. unfold g. destruct (newName f) as [[|u t]|]; try done.
    destruct (decide (status f = completed)); [|done].
    apply elem_of_union. by right. }
  generalize (∅ : gset jsstring). induction Hf as [f l|f' f l Hf IH]; intros acc.
  - cbn. apply Hmono. unfold g. rewrite Hn, decide_True by done.
    apply elem_of_union. left. by apply elem_of_singleton.
  - cbn. by apply IH.
Qed.

Lemma suffixedName_nonempty base c : suffixedName base c <> [].
Proof.
  destruct (suffixedName_split base) as (p & s & _ & ->). by destruct p.
Qed.

Lemma uniqueLoop_nonempty fuel used base :
  forall u c r,
    u <> [] -> uniqueLoop toLowerCase fuel used base u c = Some r -> r <> [].
Proof.
  induction fuel as [|fuel IH]; intros u c r Hu; cbn [uniqueLoop];
    destruct (decide (toLowerCase u ∈ used)); try done.
  - by intros [= <-].
  - apply IH, suffixedName_nonempty.
  - by intros [= <-].
Qed.

Lemma baseFinalNameOf_nonempty b res file : baseFinalNameOf b res file <> [].
Proof.
  unfold baseFinalNameOf, baseName. cbn zeta.
  by destruct (englishName (metadataOf res)).
Qed.

Lemma mergeFile_named b results used file file' used' :
  mergeFile toLowerCase b results used file = Some (file', used') ->
  (status file = completed -> exists u t, newName file = Some (u :: t)) ->
  status file' = completed -> exists u t, newName file' = Some (u :: t).
Proof.
  unfold mergeFile. destruct (decide (id file ∈ chunkIds b)).
  - destruct (findResult results file) as [res|]; [|by intros [= <- <-]].
    destruct (uniqueName toLowerCase used (baseFinalNameOf b res file))
      as [unique|] eqn:E; [|done].
    intros [= <- <-] _ _. cbn.
    apply uniqueLoop_nonempty in E; [|apply baseFinalNameOf_nonempty].
    destruct unique as [|u t]; [done|]. by exists u, t.
  - by intros [= <- <-].
Qed.

Lemma mergeFrom_named b results prev :
  forall used l used',
    mergeFrom toLowerCase b results used prev = Some (l, used') ->
    (forall f, f ∈ prev -> status f = completed ->
               exists u t, newName f = Some (u :: t)) ->
    forall f, f ∈ l -> status f = completed -> exists u t, newName f = Some (u :: t).
Proof.
  induction prev as [|file rest IH]; intros used l used'.
  - intros [= <- <-] _ f Hf. by apply not_elem_of_nil in Hf.
  - cbn [mergeFrom].
    destruct (mergeFile toLowerCase b results used file) as [[file' used1]|] eqn:Ef;
      [|done].
    destruct (mergeFrom toLowerCase b results used1 rest) as [[l' used2]|] eqn:Er;
      [|done].
    intros [= <- <-] Hprev f [->|Hf]%elem_of_cons.
    + apply (mergeFile_named _ _ _ _ _ _ Ef). apply Hprev. by left.
    + apply (IH _ _ _ Er); [|done]. intros g Hg. apply Hprev. by right.
Qed.

(** The invariant survives whatever shrinks the names and leaves the
    cycles alone. *)
Lemma DedupInv_shrink st st' :
  DedupInv toLowerCase st ->
  batches st' = batches st ->
  isRequestInFlight st' = isRequestInFlight st ->
  completedNames toLowerCase (files st')
    `sublist_of` completedNames toLowerCase (files st) ->
  (forall f, f ∈ files st' -> status f = completed ->
             exists u t, newName f = Some (u :: t)) ->
  DedupInv toLowerCase st'.
Proof.
  intros [Ha Hn Hi Hs Hr] Hb Hf Hsub Hnamed. split.
  - unfold namesApart in *. by eapply sublist_NoDup.
  - done.
  - rewrite Hb, Hf. done.
  - rewrite Hb. done.
  - rewrite Hb. intros k b Hk Hp x Hx. apply (Hr k b Hk Hp).
    by eapply sublist_elem_of.
Qed.

Lemma DedupInv_demotes g st :
  demotes g -> DedupInv toLowerCase st ->
  DedupInv toLowerCase (setFiles (fmap g) st).
Proof.
  intros Hg Hinv. apply (DedupInv_shrink st); [done..| |].
  - by apply completedNames_demotes.
  - apply named_demotes; [done|]. apply Hinv.
Qed.

(** Moving the one open cycle on. *)
Lemma batches_advance st k b p :
  DedupInv toLowerCase st ->
  batches st !! k = Some b -> phase b <> finished -> p <> awaitingOracle ->
  (forall j bj, <[k := withPhase p b]> (batches st) !! j = Some bj ->
                phase bj <> finished -> j = k) /\
  (forall j bj, <[k := withPhase p b]> (batches st) !! j = Some bj ->
                phase bj <> awaitingOracle) /\
  (p = finished ->
   forall bj, bj ∈ <[k := withPhase p b]> (batches st) -> phase bj = finished) /\
  isRequestInFlight st = true.
Proof.
  intros Hinv Hk Hb Hp.
  assert (Hone : forall j bj, <[k := withPhase p b]> (batches st) !! j = Some bj ->
                              phase bj <> finished -> j = k).
  { intros j bj Hj Hnf.
    apply list_lookup_insert_Some in Hj as [(-> & _)|(Hne & Hj)]; [done|].
    by apply (inv_single _ _ Hinv j k bj b). }
  split; [exact Hone|]. split; [|split].
  - intros j bj Hj Haw.
    assert (j = k) as -> by (apply (Hone j bj Hj); congruence).
    apply list_lookup_insert_Some in Hj as [(_ & <- & _)|(Hne & _)]; done.
  - intros -> bj Hin. apply list_elem_of_lookup in Hin as (j & Hj).
    destruct (decide (phase bj = finished)) as [|Hnf]; [done|].
    assert (j = k) as -> by (apply (Hone j bj Hj Hnf)).
    apply list_lookup_insert_Some in Hj as [(_ & <- & _)|(Hne & _)]; done.
  - destruct (isRequestInFlight st) eqn:E; [done|].
    destruct Hb. apply (inv_idle _ _ Hinv E). by eapply list_elem_of_lookup_2.
Qed.

Lemma DedupInv_processNextBatch n st :
  DedupInv toLowerCase st ->
  isRequestInFlight st = false ->
  filesRef st = files st ->
  DedupInv toLowerCase (processNextBatch toLowerCase n st).
Proof.
  intros Hinv Hidle Href. unfold processNextBatch.
  set (ids := list_to_set (id <$> take n (pendingOf (files st))) : gset jsstring).
  pose proof (completedNames_demotes _ (files st) (markChunk_demotes ids)) as Hsub.
  assert (Hold : forall j bj, batches st !! j = Some bj -> phase bj = finished).
  { intros j bj Hj. apply (inv_idle _ _ Hinv Hidle).
    by eapply list_elem_of_lookup_2. }
  split; cbn.
  - eapply sublist_NoDup; [apply Hinv|exact Hsub].
  - apply named_demotes; [apply markChunk_demotes|apply Hinv].
  - done.
  - intros j k bj bk Hj Hk Hnj Hnk.
    apply lookup_snoc_Some in Hj as [(_ & Hj)|(-> & _)];
      [by apply Hold in Hj|].
    apply lookup_snoc_Some in Hk as [(_ & Hk)|(-> & _)];
      [by apply Hold in Hk|done].
  - intros k b Hk Hp x Hx.
    apply lookup_snoc_Some in Hk as [(_ & Hk)|(_ & <-)].
    { apply Hold in Hk. congruence. }
    cbn. rewrite Href.
    apply (sublist_elem_of _ _ _ Hsub), completedNames_elem in Hx
      as (f & m & Hf & Hs & Hm & ->).
    destruct (inv_named _ _ Hinv f Hf Hs) as (u & t & Hut).
    rewrite Hut in Hm. injection Hm as <-.
    by eapply collectUsedNames_elem.
Qed.

(** Every event other than stop and restart keeps the invariant. *)
Lemma DedupInv_step st ev st' :
  DedupInv toLowerCase st ->
  interrupts ev = false ->
  step toLowerCase st ev = Some st' ->
  DedupInv toLowerCase st'.
Proof.
  intros Hinv Hev. destruct ev as [newFiles|i| | | | |k outcome|k];
    try discriminate Hev; cbn [step].
  - intros [= <-]. apply (DedupInv_shrink st); [done..| |]; cbn [files setFiles].
    + unfold handleFilesSelected. rewrite completedNames_app.
      match goal with
      | |- context [completedNames _ (?g <$> newFiles)] =>
          assert (Hnil : completedNames toLowerCase (g <$> newFiles) = [])
            by (clear; induction newFiles as [|p t IH]; [done|exact IH])
      end.
      by rewrite Hnil, app_nil_r.
    + unfold handleFilesSelected. intros f [Hf|Hf]%elem_of_app.
      * by apply Hinv.
      * apply list_elem_of_fmap in Hf as (p & -> & _). done.
  - intros [= <-]. apply (DedupInv_shrink st); [done..| |]; cbn [files setFiles].
    + apply completedNames_filter.
    + intros f Hf. apply list_elem_of_filter in Hf as [_ Hf]. by apply Hinv.
  - intros [= <-]. apply (DedupInv_shrink st); [done..|apply Hinv].
  - intros [= <-].
    assert (Hinv1 : DedupInv toLowerCase (setFilesRef (files st) st)).
    { apply (DedupInv_shrink st); [done..|apply Hinv]. }
    unfold cycleEffect, cycleEffectWith.
    destruct (negb _); [done|].
    destruct (isRequestInFlight (setFilesRef (files st) st)) eqn:Ef; [done|].
    destruct (pendingOf _); [|by apply DedupInv_processNextBatch].
    destruct (existsb _ _).
    + apply DedupInv_demotes; [apply healZombies_demotes|done].
    + apply (DedupInv_shrink (setFilesRef (files st) st)); [done..|apply Hinv].
  - unfold oracleSettled.
    destruct (batches st !! k) as [b|] eqn:Hk; [|by intros [= <-]].
    destruct (phase b) eqn:Hp; try by intros [= <-].
    destruct (batches_advance st k b coolingDown Hinv Hk)
      as (Hone & Hnone & _ & Hfl); [congruence|done|].
    assert (Hshape : forall l,
               namesApart toLowerCase l ->
               (forall f, f ∈ l -> status f = completed ->
                          exists u t, newName f = Some (u :: t)) ->
               DedupInv toLowerCase
                 (setFiles (fun _ => l)
                    (setBatches (<[k := withPhase coolingDown b]>) st))).
    { intros l Hl Hnamed. split; cbn; [done|done|congruence| |].
      - intros j j' bj bj' Hj Hj' Hnj Hnj'.
        rewrite (Hone j bj Hj Hnj). symmetry. by apply (Hone j' bj').
      - intros j bj Hj Haw. by apply Hnone in Hj. }
    destruct outcome as [e|results].
    + intros [= <-]. apply Hshape.
      * eapply sublist_NoDup; [apply Hinv|].
        apply completedNames_demotes, failChunk_demotes.
      * apply named_demotes; [apply failChunk_demotes|apply Hinv].
    + destruct (mergeResults toLowerCase b results (files st)) as [l|] eqn:Hm;
        [|done].
      intros [= <-]. apply Hshape.
      * apply (mergeResults_apart toLowerCase b results (files st)); [done| |].
        -- eapply sublist_NoDup; [apply Hinv|apply completedNames_outside].
        -- intros x Hx. apply (inv_registry _ _ Hinv k b Hk Hp).
           eapply sublist_elem_of; [apply completedNames_outside|exact Hx].
      * unfold mergeResults in Hm.
        destruct (mergeFrom toLowerCase b results (usedNames b) (files st))
          as [[l' u]|] eqn:Hmf; [|done].
        injection Hm as <-.
        apply (mergeFrom_named b results (files st) _ _ _ Hmf).
        apply Hinv.
  - intros [= <-]. unfold cooldownElapsed.
    destruct (batches st !! k) as [b|] eqn:Hk; [|done].
    destruct (phase b) eqn:Hp; try done.
    destruct (batches_advance st k b finished Hinv Hk)
      as (Hone & Hnone & Hall & _); [congruence|done|].
    split; cbn; [apply Hinv|apply Hinv|by intros _; apply Hall| |].
    + intros j j' bj bj' Hj Hj' Hnj Hnj'.
      rewrite (Hone j bj Hj Hnj). symmetry. by apply (Hone j' bj').
    + intros j bj Hj Haw. by apply Hnone in Hj.
Qed.

Lemma DedupInv_initial : DedupInv toLowerCase initialState.
Proof.
  split; cbn.
  - constructor.
  - intros f Hf. by apply not_elem_of_nil in Hf.
  - intros _ b Hb. by apply not_elem_of_nil in Hb.
  - intros j k bj bk Hj. done.
  - intros k b Hk. done.
Qed.

(** On every run without stop and restart, no two [completed] records
    share a new name, case-insensitively, in any state reached. *)
Lemma names_apart_without_interrupts evs :
  forall st st',
    DedupInv toLowerCase st ->
    forallb (fun ev => negb (interrupts ev)) evs = true ->
    run toLowerCase st evs = Some st' ->
    DedupInv toLowerCase st'.
Proof.
  induction evs as [|ev evs IH]; intros st st' Hinv Hevs; cbn [run].
  - by intros [= <-].
  - cbn in Hevs. apply andb_prop in Hevs as [Hev Hevs].
    destruct (step toLowerCase st ev) as [st1|] eqn:E; [|done].
    apply IH; [|done]. eapply DedupInv_step; [done| |exact E].
    by destruct (interrupts ev).
Qed.

(** With a [toLowerCase] that keeps candidates apart, every event is
    handled to its end. *)
Hypothesis lower_inj : forall base j k,
    toLowerCase (candidate base j) = toLowerCase (candidate base k) -> j = k.

Lemma step_total st ev : exists st', step toLowerCase st ev = Some st'.
Proof using lower_inj.
  destruct ev as [newFiles|i| | | | |k outcome|k]; cbn [step]; try by eexists.
  unfold oracleSettled.
  destruct (batches st !! k) as [b|]; [|by eexists].
  destruct (phase b); try by eexists.
  destruct outcome as [e|results]; [by eexists|].
  destruct (mergeResults_outcome toLowerCase lower_inj b results (files st))
    as (l & -> & _).
  by eexists.
Qed.

Lemma run_total evs : forall st, exists st', run toLowerCase st evs = Some st'.
Proof using lower_inj.
  induction evs as [|ev evs IH]; intros st; cbn [run]; [by eexists|].
  destruct (step_total st ev) as (st1 & ->). apply IH.
Qed.

(** From the initial state, a run without stop and restart ends, in a
    state where the names of the [completed] records are apart. *)
Lemma names_apart_from_start evs :
  forallb (fun ev => negb (interrupts ev)) evs = true ->
  exists st, run toLowerCase initialState evs = Some st /\
             namesApart toLowerCase (files st).
Proof using lower_inj.
  intros Hevs. destruct (run_total evs initialState) as (st & Hrun).
  exists st. split; [done|].
  by apply (names_apart_without_interrupts evs initialState st DedupInv_initial).
Qed.

End DedupInvariant.

(** ** Queue handlers and the cycle check *)

Lemma pendingOf_cons f l :
  pendingOf (f :: l) = if decide (status f = pending) then f :: pendingOf l
                       else pendingOf l.
Proof. unfold pendingOf. by rewrite filter_cons. Qed.

(** The chunk is made of the pending records of a prefix of the queue, in
    queue order, and holds as many of them as the bound allows. *)
Lemma chunkOf_prefix n files :
  exists l1 l2,
    files = l1 ++ l2 /\
    chunkOf n files = pendingOf l1 /\
    length (chunkOf n files) = n `min` length (pendingOf files).
Proof.
  revert n. induction files as [|f t IH]; intros n.
  - exists [], []. unfold chunkOf. cbn. rewrite take_nil. by rewrite Nat.min_0_r.
  - destruct n as [|n].
    { exists [], (f :: t). unfold chunkOf. by rewrite take_0. }
    unfold chunkOf in *. rewrite pendingOf_cons.
    destruct (decide (status f = pending)) as [Hp|Hp].
    + destruct (IH n) as (l1 & l2 & -> & Hc & Hlen).
      exists (f :: l1), l2. rewrite pendingOf_cons, decide_True by done.
      cbn. rewrite Hc, <- Hlen. by rewrite Hc.
    + destruct (IH (S n)) as (l1 & l2 & -> & Hc & Hlen).
      exists (f :: l1), l2. rewrite pendingOf_cons, decide_False by done.
      done.
Qed.

Lemma handleDeleteFile_unique i prev :
  NoDup (id <$> prev) ->
  ((i ∉ (id <$> prev)) /\ handleDeleteFile i prev = prev) \/
  (exists l1 f l2, prev = l1 ++ f :: l2 /\ id f = i /\
                   handleDeleteFile i prev = l1 ++ l2).
Proof.
  unfold handleDeleteFile. induction prev as [|f t IH]; intros Hnd.
  - left. split; [apply not_elem_of_nil|done].
  - rewrite fmap_cons in Hnd. apply NoDup_cons in Hnd as [Hf Ht].
    destruct (IH Ht) as [[Hi Heq]|(l1 & g & l2 & -> & Hg & Heq)].
    + destruct (decide (id f = i)) as [Hfi|Hfi].
      * right. exists [], f, t. rewrite filter_cons_False by tauto.
        by rewrite Heq.
      * left. rewrite fmap_cons, not_elem_of_cons.
        rewrite filter_cons_True by done. by rewrite Heq.
    + right. exists (f :: l1), g, l2.
      assert (id f <> i) as Hfi.
      { intros <-. apply Hf. rewrite fmap_app, fmap_cons, <- Hg.
        apply elem_of_app. right. apply list_elem_of_here. }
      rewrite filter_cons_True by done. by rewrite Heq.
Qed.

(** C10.  Deleting by id keeps exactly the records with another id, each
    one as it was and in the order of the queue; and when the ids of the
    queue are pairwise distinct it removes nothing (no record has the id)
    or the one record with that id. *)
Theorem C10_delete_frame (i : jsstring) (prev : list ProcessedFile) :
  handleDeleteFile i prev `sublist_of` prev /\
  (forall f, f ∈ handleDeleteFile i prev <-> f ∈ prev /\ id f <> i) /\
  (NoDup (id <$> prev) ->
   ((i ∉ (id <$> prev)) /\ handleDeleteFile i prev = prev) \/
   (exists l1 f l2, prev = l1 ++ f :: l2 /\ id f = i /\
                    handleDeleteFile i prev = l1 ++ l2)).
Proof.
  split; [apply sublist_filter|]. split; [|apply handleDeleteFile_unique].
  intros f. unfold handleDeleteFile. rewrite list_elem_of_filter. tauto.
Qed.

Section CycleProperties.

Variable JSON_parse : jsstring -> JsError + list RawItem.
Variable toLowerCase : jsstring -> jsstring.



(** C7.  The chunk of a cycle is [chunkOf] of the queue: the pending
    records of a prefix of the queue in queue order, as many as the
    bound allows; new records are enqueued behind all earlier ones; and
    three pending records [A], [B], [C] with the bound 2 give the chunk
    [A], [B]. *)
Theorem C7_fifo_chunk :
  (forall n files,
      exists l1 l2,
        files = l1 ++ l2 /\ chunkOf n files = pendingOf l1 /\
        length (chunkOf n files) = n `min` length (pendingOf files)) /\
  (forall newFiles prev,
      pendingOf (handleFilesSelected newFiles prev)
      = pendingOf prev ++ drop (length prev) (handleFilesSelected newFiles prev)) /\
  (forall n st,
      isProcessing st = true -> isRequestInFlight st = false ->
      pendingOf (files st) <> [] ->
      exists b,
        batches (cycleEffectWith toLowerCase n st) = batches st ++ [b] /\
        chunkData b = chunkDatum <$> chunkOf n (files st) /\
        chunkIds b = list_to_set (id <$> chunkOf n (files st)) /\
        itemsToSend b
        = (fun f => (id f, nameWithoutExt (chunkDatum f))) <$> chunkOf n (files st)) /\
  (forall A B C,
      status A = pending -> status B = pending -> status C = pending ->
      chunkOf 2 [A; B; C] = [A; B]).
Proof.
  split; [apply chunkOf_prefix|]. split; [|split].
  - intros newFiles prev. unfold handleFilesSelected, pendingOf.
    rewrite filter_app, drop_app_length. f_equal.
    induction newFiles as [|p t IH]; [done|].
    rewrite fmap_cons, filter_cons_True by done. by rewrite IH.
  - intros n st Hp Hf Hne. unfold cycleEffectWith. rewrite Hp, Hf. cbn [negb].
    destruct (pendingOf (files st)) as [|f t] eqn:E; [done|].
    unfold processNextBatch, chunkOf. rewrite E. cbn.
    eexists. split; [reflexivity|]. cbn.
    repeat split. by rewrite <- !list_fmap_compose.
  - intros A B C HA HB HC. unfold chunkOf.
    by rewrite !pendingOf_cons, !decide_True.
Qed.

(** C9.  When the reply that ends the client's attempts carries an
    undefined or empty text, the client returns the empty list, it does
    not raise; the orchestrator then takes the success branch, whose
    merge finds no entry for any id: every record of the chunk becomes
    [error] and is otherwise unchanged, the other records are left as
    they are. *)
Theorem C9_empty_text (replies : nat -> ApiReply) (k : nat)
    (st : AppState) (n : nat) (b : Batch) :
  k <= 3 ->
  (forall j, j < k -> failsTransiently JSON_parse (replies j) = true) ->
  replies k = Responds None \/ replies k = Responds (Some []) ->
  batches st !! n = Some b ->
  phase b = awaitingOracle ->
  snd (analyzeFilenamesBatch JSON_parse replies) = inr [] /\
  exists st',
    oracleSettled toLowerCase n
      (snd (analyzeFilenamesBatch JSON_parse replies)) st = Some st' /\
    length (files st') = length (files st) /\
    (forall i f, files st !! i = Some f ->
       files st' !! i
       = Some (if decide (id f ∈ chunkIds b) then withStatus error f else f)).
Proof.
  intros Hk Hbefore Hempty Hb Hph.
  rewrite (analyzeFilenamesBatch_empty_text JSON_parse replies k) by done.
  cbn [snd]. split; [done|].
  unfold oracleSettled. rewrite Hb, Hph, mergeResults_no_results.
  eexists. split; [reflexivity|]. cbn.
  split; [unfold failChunk; by rewrite length_fmap|].
  intros i f Hi. by apply failChunk_lookup.
Qed.


Hypothesis lower_inj : forall base j k,
    toLowerCase (candidate base j) = toLowerCase (candidate base k) -> j = k.


End CycleProperties.

(** * Further properties of the code *)

Close Scope N_scope.

(** ** The sanitizer's results *)

Lemma sanitizeSteps_shape b s :
  Forall (fun u => isSafeUnit b u = true) (sanitizeSteps b s) /\
  noDoubleUnderscore (sanitizeSteps b s) /\
  (b = false -> head (sanitizeSteps b s) <> Some UNDERSCORE /\
                last (sanitizeSteps b s) <> Some UNDERSCORE) /\
  (b = true -> head (sanitizeSteps b s) <> Some DOT /\
               last (sanitizeSteps b s) <> Some DOT).
Proof.
  destruct (trimmed_underscores b s) as (Hu & Hr & Hh & Hl).
  unfold sanitizeSteps. cbn zeta in *.
  set (r := trimUnderscore (collapseUnderscores (replaceUnsafe b s))) in *.
  destruct b.
  - unfold trimDots.
    pose proof (dropLeading_suffix DOT r) as Hs.
    pose proof (dropTrailing_prefix DOT (dropLeading DOT r)) as Hp.
    split; [|split; [|split]].
    + eauto using Forall_prefix, Forall_suffix.
    + eauto using noDoubleUnderscore_prefix, noDoubleUnderscore_suffix.
    + done.
    + intros _. split; [|apply last_dropTrailing].
      eapply head_prefix; [exact Hp|apply head_dropLeading].
  - by repeat split.
Qed.

Lemma isSafeUnit_not (b : bool) (u c : N) :
  isSafeUnit b c = false -> isSafeUnit b u = true -> u <> c.
Proof. intros Hc Hu ->. congruence. Qed.

(** X3.  Whatever the input, the token [sanitizePart] returns is not
    empty; each of its units is a letter, a digit, a CJK ideograph, an
    underscore or, with [allowDots], a dot, so it holds no hyphen, no
    slash and no space; no underscore follows another; without
    [allowDots] it neither starts nor ends with an underscore and holds
    no dot; with [allowDots] it neither starts nor ends with a dot. *)
Theorem X3_sanitizePart_shape (x : option jsstring) (allowDots : bool) :
  let r := sanitizePart x allowDots in
  r <> [] /\
  Forall (fun u => isSafeUnit allowDots u = true) r /\
  ((45%N ∉ r) /\ (47%N ∉ r) /\ (32%N ∉ r)) /\
  noDoubleUnderscore r /\
  (allowDots = false ->
   head r <> Some UNDERSCORE /\ last r <> Some UNDERSCORE /\ (DOT ∉ r)) /\
  (allowDots = true -> head r <> Some DOT /\ last r <> Some DOT).
Proof.
  cbn zeta.
  assert (Hgen : forall r : jsstring,
             r <> [] ->
             Forall (fun u => isSafeUnit allowDots u = true) r ->
             noDoubleUnderscore r ->
             (allowDots = false ->
              head r <> Some UNDERSCORE /\ last r <> Some UNDERSCORE) ->
             (allowDots = true -> head r <> Some DOT /\ last r <> Some DOT) ->
             r <> [] /\
             Forall (fun u => isSafeUnit allowDots u = true) r /\
             ((45%N ∉ r) /\ (47%N ∉ r) /\ (32%N ∉ r)) /\
             noDoubleUnderscore r /\
             (allowDots = false ->
              head r <> Some UNDERSCORE /\ last r <> Some UNDERSCORE /\ (DOT ∉ r)) /\
             (allowDots = true -> head r <> Some DOT /\ last r <> Some DOT)).
  { intros r Hne Hu Hr Hf Ht.
    assert (Hnot : forall c, isSafeUnit allowDots c = false -> c ∉ r).
    { intros c Hc Hin. rewrite Forall_forall in Hu.
      specialize (Hu c Hin). congruence. }
    repeat split; try done.
    - apply Hnot. by destruct allowDots.
    - apply Hnot. by destruct allowDots.
    - apply Hnot. by destruct allowDots.
    - by apply Hf.
    - by apply Hf.
    - intros Hin. apply (Hnot DOT); [|done]. by subst allowDots.
    - by apply Ht.
    - by apply Ht. }
  destruct (sanitizePart_cases x allowDots) as [->|(s & _ & Hne & ->)].
  - destruct (Unknown_stable allowDots) as [Hu Hr Hh Hl Hd].
    apply Hgen; [done|done|done|done|done].
  - destruct (sanitizeSteps_shape allowDots s) as (Hu & Hr & Hf & Ht).
    by apply Hgen.
Qed.

(** ** Splitting the original name *)

Lemma lastIndexOf_at c s :
  lastIndexOf c s <> (-1)%Z ->
  s !! Z.to_nat (lastIndexOf c s) = Some c /\
  (Z.to_nat (lastIndexOf c s) < length s)%nat.
Proof.
  induction s as [|u t IH]; [done|]. cbn [lastIndexOf].
  pose proof (lastIndexOf_range c t) as Hr.
  destruct (Z.eqb_spec (lastIndexOf c t) (-1)) as [E|E].
  - destruct (N.eqb_spec u c) as [->|]; [|done]. intros _. cbn. split; [done|lia].
  - intros _. destruct (IH E) as [Hat Hlt].
    replace (Z.to_nat (lastIndexOf c t + 1)) with (S (Z.to_nat (lastIndexOf c t)))
      by lia.
    cbn. split; [done|lia].
Qed.

Lemma split_at_last c s :
  lastIndexOf c s <> (-1)%Z ->
  substringTo s (lastIndexOf c s) ++ c :: substringFrom s (lastIndexOf c s + 1) = s.
Proof.
  intros H. destruct (lastIndexOf_at c s H) as [Hat Hlt].
  pose proof (lastIndexOf_range c s) as Hr.
  unfold substringTo, substringFrom.
  replace (Z.to_nat (lastIndexOf c s + 1)) with (S (Z.to_nat (lastIndexOf c s)))
    by lia.
  rewrite <- (drop_S s c _ Hat). apply take_drop.
Qed.

(** X6.  [chunkDatum] splits the original name at its last dot and loses
    nothing: with a dot in the name, stem, dot and extension make up the
    name again and the extension holds no dot; without one, the stem is
    the whole name and the extension is empty.  The id and the name are
    carried over. *)
Theorem X6_chunkDatum_round_trip (f : ProcessedFile) :
  d_id (chunkDatum f) = id f /\
  d_originalName (chunkDatum f) = originalName f /\
  (DOT ∉ ext (chunkDatum f)) /\
  (DOT ∈ originalName f ->
   nameWithoutExt (chunkDatum f) ++ DOT :: ext (chunkDatum f) = originalName f) /\
  (DOT ∉ originalName f ->
   nameWithoutExt (chunkDatum f) = originalName f /\ ext (chunkDatum f) = []).
Proof.
  split; [done|]. split; [done|]. split; [apply chunkDatum_ext_no_dot|].
  unfold chunkDatum. cbn [nameWithoutExt ext].
  destruct (Z.eqb_spec (lastIndexOf DOT (originalName f)) (-1)) as [E|E].
  - apply lastIndexOf_none in E. split; [done|]. by intros _.
  - split.
    + intros _. by apply split_at_last.
    + intros Hno. by apply lastIndexOf_absent in Hno.
Qed.

(** ** The assigned name *)

Lemma baseName_ext e c d x : baseName e c d x = baseName e c d [] ++ x.
Proof. unfold baseName. by rewrite app_nil_r, <- !app_assoc. Qed.

(** X5.  The name given to a record whose original name has an
    extension is the three sanitized labels joined by ["--"], then the
    counter the loop arrived at (none for the base itself), then the dot
    and the original extension: the extension is kept as it is and the
    counter stands immediately before it. *)
Theorem X5_extension_kept (b : Batch) (res : BatchResult)
    (file g : ProcessedFile) (m : nat) :
  findData b file = Some (chunkDatum g) ->
  ext (chunkDatum g) <> [] ->
  candidate (baseFinalNameOf b res file) m
  = baseName (englishName (metadataOf res)) (chineseName (metadataOf res))
      (domainOrNote (metadataOf res)) []
    ++ counterSuffix m ++ DOT :: ext (chunkDatum g).
Proof.
  intros Hd Hext. unfold baseFinalNameOf. cbn zeta. rewrite Hd.
  unfold originalExtOf.
  destruct (ext (chunkDatum g)) as [|u t] eqn:E; [done|].
  rewrite baseName_ext. destruct m as [|m]; [done|].
  cbn [candidate counterSuffix].
  rewrite suffixedName_before_extension; [done|].
  rewrite <- E. apply chunkDatum_ext_no_dot.
Qed.

Section ResolutionExtras.

Variable toLowerCase : jsstring -> jsstring.



(** [toLowerCase] keeps the candidates of a base name apart. *)
Hypothesis lower_inj : forall base j k,
    toLowerCase (candidate base j) = toLowerCase (candidate base k) -> j = k.

(** X4.  When [toLowerCase] keeps the candidates of a name apart, the
    resolution loop ends within as many rounds as there are registered
    names, and returns the first of base, base_1, base_2, ... whose
    lower-case form is not registered. *)
Theorem X4_first_free_name (used : gset jsstring) (base : jsstring) :
  exists m,
    m <= size used /\
    uniqueName toLowerCase used base = Some (candidate base m) /\
    (toLowerCase (candidate base m) ∉ used) /\
    forall j, j < m -> toLowerCase (candidate base j) ∈ used.
Proof using lower_inj.
  destruct (exists_first_free toLowerCase lower_inj used base)
    as (m & Hm & Hfree & Hbelow).
  exists m. split; [done|]. split; [|done].
  by apply uniqueName_first_free.
Qed.

End ResolutionExtras.

(** ** Code fences around the response *)

Lemma startsWith_app p s : startsWith (p ++ s) p = true.
Proof. induction p as [|a p IH]; [by destruct s|]. cbn. by rewrite N.eqb_refl. Qed.

Lemma startsWith_prefix s p q :
  startsWith s (p ++ q) = true -> startsWith s p = true.
Proof.
  revert s. induction p as [|a p IH]; intros s; [by destruct s|].
  destruct s as [|c s]; [done|]. cbn.
  destruct (a =? c)%N; [apply IH|done].
Qed.

Lemma dropSpaces_spaces ws s :
  Forall (fun u => isSpace u = true) ws -> dropSpaces (ws ++ s) = dropSpaces s.
Proof. induction 1 as [|u ws Hu _ IH]; [done|]. cbn [app dropSpaces]. by rewrite Hu. Qed.

Lemma dropSpaces_fixed s :
  (forall u, head s = Some u -> isSpace u = false) -> dropSpaces s = s.
Proof. destruct s as [|u t]; [done|]. intros H. cbn. by rewrite (H u). Qed.

Lemma rev_is_reverse (s : jsstring) : rev s = reverse s.
Proof. unfold reverse. apply rev_alt. Qed.

Lemma stripClosingFence_fenced body ws :
  Forall (fun u => isSpace u = true) ws ->
  (forall u, last body = Some u -> isSpace u = false) ->
  stripClosingFence (body ++ ws ++ FENCE) = body.
Proof.
  intros Hws Hlast. unfold stripClosingFence.
  rewrite !rev_app_distr.
  change (rev FENCE) with FENCE. rewrite <- app_assoc, startsWith_app.
  change (drop 3 (FENCE ++ rev ws ++ rev body)) with (rev ws ++ rev body).
  rewrite dropSpaces_spaces by (by apply List.Forall_rev).
  rewrite dropSpaces_fixed; [apply rev_involutive|].
  intros u. rewrite rev_is_reverse, head_reverse. apply Hlast.
Qed.

Lemma stripFences_body ws1 body ws2 :
  Forall (fun u => isSpace u = true) ws1 ->
  Forall (fun u => isSpace u = true) ws2 ->
  (forall u, head body = Some u -> isSpace u = false) ->
  (forall u, last body = Some u -> isSpace u = false) ->
  stripClosingFence (dropSpaces (ws1 ++ body ++ ws2 ++ FENCE)) = body.
Proof.
  intros H1 H2 Hh Hl. rewrite dropSpaces_spaces by done.
  destruct body as [|u t].
  - cbn [app]. rewrite dropSpaces_spaces by done.
    apply (stripClosingFence_fenced [] []); [constructor|done].
  - rewrite dropSpaces_fixed; [by apply stripClosingFence_fenced|].
    intros v [= <-]. by apply Hh.
Qed.

Lemma stripFences_json_fenced ws1 body ws2 :
  Forall (fun u => isSpace u = true) ws1 ->
  Forall (fun u => isSpace u = true) ws2 ->
  (forall u, head body = Some u -> isSpace u = false) ->
  (forall u, last body = Some u -> isSpace u = false) ->
  stripFences (FENCE ++ js "json" ++ ws1 ++ body ++ ws2 ++ FENCE) = body.
Proof.
  intros H1 H2 Hh Hl. unfold stripFences. rewrite app_assoc, startsWith_app.
  rewrite <- app_assoc.
  change (drop 7 (FENCE ++ js "json" ++ ?x)) with x.
  by apply stripFences_body.
Qed.

Lemma stripFences_unfenced text :
  startsWith text FENCE = false -> stripFences text = text.
Proof.
  intros Ht. unfold stripFences. rewrite Ht.
  destruct (startsWith text (FENCE ++ js "json")) eqn:E; [|done].
  apply startsWith_prefix in E. congruence.
Qed.

(** X7.  The cleanup unwraps a fenced payload: for a text made of the
    opening fence with or without the tag [json], white space, a body
    that neither starts nor ends with white space, white space and the
    closing fence, it returns the body; a text that does not start with
    a fence is returned as it is. *)
Theorem X7_stripFences_unwraps (ws1 body ws2 : jsstring) :
  Forall (fun u => isSpace u = true) ws1 ->
  Forall (fun u => isSpace u = true) ws2 ->
  (forall u, head body = Some u -> isSpace u = false) ->
  (forall u, last body = Some u -> isSpace u = false) ->
  stripFences (FENCE ++ js "json" ++ ws1 ++ body ++ ws2 ++ FENCE) = body /\
  (startsWith (ws1 ++ body ++ ws2 ++ FENCE) (js "json") = false ->
   stripFences (FENCE ++ ws1 ++ body ++ ws2 ++ FENCE) = body) /\
  (forall text, startsWith text FENCE = false -> stripFences text = text).
Proof.
  intros H1 H2 Hh Hl. split; [|split].
  - by apply stripFences_json_fenced.
  - intros Hj. unfold stripFences.
    change (startsWith (FENCE ++ ?x) (FENCE ++ js "json"))
      with (startsWith x (js "json")).
    rewrite Hj, startsWith_app.
    change (drop 3 (FENCE ++ ?x)) with x.
    by apply stripFences_body.
  - apply stripFences_unfenced.
Qed.

Section ClientExtras.

Variable JSON_parse : jsstring -> JsError + list RawItem.

(** X18.  A reply whose text is a payload wrapped in a [json] code fence
    gives the client what the bare payload gives: the same items, or the
    same parse error in the [catch] block. *)
Theorem X18_fenced_reply_parses_alike (ws1 body ws2 : jsstring) :
  Forall (fun u => isSpace u = true) ws1 ->
  Forall (fun u => isSpace u = true) ws2 ->
  (exists u, head body = Some u /\ isSpace u = false) ->
  (forall u, last body = Some u -> isSpace u = false) ->
  startsWith body FENCE = false ->
  tryBody JSON_parse
    (Responds (Some (FENCE ++ js "json" ++ ws1 ++ body ++ ws2 ++ FENCE)))
  = tryBody JSON_parse (Responds (Some body)).
Proof.
  intros H1 H2 (u & Hu & Hsp) Hl Hf.
  assert (Hstrip : stripFences (FENCE ++ js "json" ++ ws1 ++ body ++ ws2 ++ FENCE)
                   = body).
  { apply stripFences_json_fenced; try done. intros v Hv. congruence. }
  destruct body as [|b0 bt]; [done|].
  unfold tryBody.
  change (FENCE ++ js "json" ++ ?x)
    with (BACKTICK :: BACKTICK :: BACKTICK :: js "json" ++ x) in *.
  by rewrite Hstrip, (stripFences_unfenced _ Hf).
Qed.

End ClientExtras.

(** ** Starting a cycle *)

Lemma filter_all {A} (P : A -> Prop) `{!forall x, Decision (P x)} (l : list A) :
  Forall P l -> filter P l = l.
Proof.
  induction 1 as [|x l Hx _ IH]; [done|]. by rewrite filter_cons_True, IH.
Qed.

Lemma filter_split_length {A} (P : A -> Prop) `{!forall x, Decision (P x)}
    (l : list A) :
  length (filter P l) + length (filter (fun x => ~ P x) l) = length l.
Proof.
  induction l as [|x l IH]; [done|]. rewrite !filter_cons.
  destruct (decide (P x)), (decide (~ P x)); cbn; try tauto; lia.
Qed.

Lemma pendingOf_markChunk (ids : gset jsstring) l :
  pendingOf (markChunk ids l) = filter (fun f => id f ∉ ids) (pendingOf l).
Proof.
  unfold pendingOf, markChunk. induction l as [|f l IH]; [done|].
  rewrite fmap_cons, !filter_cons, IH.
  destruct (decide (id f ∈ ids)) as [Hin|Hout].
  - rewrite decide_False by done.
    destruct (decide (status f = pending)); [|done].
    by rewrite filter_cons_False by tauto.
  - destruct (decide (status f = processing)) as [Hp|Hp].
    + rewrite decide_False by done. by rewrite decide_False by congruence.
    + destruct (decide (status f = pending)); [|done].
      by rewrite filter_cons_True.
Qed.

Lemma chunk_ids_in n l f :
  f ∈ take n (pendingOf l) ->
  id f ∈ (list_to_set (id <$> take n (pendingOf l)) : gset jsstring).
Proof. intros Hf. apply elem_of_list_to_set, list_elem_of_fmap. by exists f. Qed.

Lemma markChunk_processing (ids : gset jsstring) l f' :
  f' ∈ markChunk ids l -> (status f' = processing <-> id f' ∈ ids).
Proof.
  unfold markChunk. intros Hin. apply list_elem_of_fmap in Hin as (f & -> & _).
  destruct (decide (id f ∈ ids)) as [Hid|Hid]; [done|].
  destruct (decide (status f = processing)); cbn; split; intros; done.
Qed.

Section CycleExtras.

Variable toLowerCase : jsstring -> jsstring.

(** X8.  When a cycle starts, the guard is taken and one call is opened
    for the ids of the chunk; afterwards a record of the queue is
    [processing] exactly when its id is one of these, so a record left
    [processing] by an earlier cycle is turned to [error]; ids and new
    names are untouched, and a record outside the chunk that was not
    [processing] is unchanged. *)
Theorem X8_cycle_start_marks (n : nat) (st : AppState) :
  isProcessing st = true ->
  isRequestInFlight st = false ->
  pendingOf (files st) <> [] ->
  exists b,
    batches (cycleEffectWith toLowerCase n st) = batches st ++ [b] /\
    isRequestInFlight (cycleEffectWith toLowerCase n st) = true /\
    (forall x, x ∈ chunkIds b <-> exists f, f ∈ chunkOf n (files st) /\ id f = x) /\
    (forall f', f' ∈ files (cycleEffectWith toLowerCase n st) ->
                (status f' = processing <-> id f' ∈ chunkIds b)) /\
    (forall i f, files st !! i = Some f ->
       exists f', files (cycleEffectWith toLowerCase n st) !! i = Some f' /\
                  id f' = id f /\ newName f' = newName f /\
                  (id f ∉ chunkIds b -> status f = processing ->
                   status f' = error) /\
                  (id f ∉ chunkIds b -> status f <> processing -> f' = f)).
Proof.
  intros Hp Hf Hne. unfold cycleEffectWith. rewrite Hp, Hf. cbn [negb].
  destruct (pendingOf (files st)) as [|f0 t0] eqn:E; [done|].
  unfold processNextBatch, chunkOf. rewrite E.
  set (ids := list_to_set (id <$> take n (f0 :: t0)) : gset jsstring).
  cbn [batches setBatches setFiles setInFlight isRequestInFlight files].
  eexists. split; [reflexivity|]. split; [done|]. cbn [chunkIds].
  split; [|split].
  - intros x. unfold ids. rewrite elem_of_list_to_set, list_elem_of_fmap.
    split; intros (f & H1 & H2); exists f; by split.
  - intros f' Hin. unfold markChunk in Hin.
    apply list_elem_of_fmap in Hin as (f & -> & _).
    destruct (decide (id f ∈ ids)) as [Hid|Hid]; [done|].
    destruct (decide (status f = processing)); cbn; split; intros; done.
  - intros i f Hi. unfold markChunk. rewrite list_lookup_fmap, Hi. cbn.
    eexists. split; [reflexivity|].
    destruct (decide (id f ∈ ids)) as [Hid|Hid]; [by repeat split|].
    destruct (decide (status f = processing)); by repeat split.
Qed.

(** X9.  Starting a cycle takes the whole chunk out of the pending
    records: afterwards there are fewer pending records than before by at
    least the size of the chunk, hence at least one fewer when the bound
    is positive. *)
Theorem X9_cycle_consumes_pending (n : nat) (st : AppState) :
  isProcessing st = true ->
  isRequestInFlight st = false ->
  pendingOf (files st) <> [] ->
  length (pendingOf (files (cycleEffectWith toLowerCase n st)))
  + length (chunkOf n (files st)) <= length (pendingOf (files st)) /\
  (0 < n ->
   length (pendingOf (files (cycleEffectWith toLowerCase n st)))
   < length (pendingOf (files st))).
Proof.
  intros Hp Hf Hne. unfold cycleEffectWith. rewrite Hp, Hf. cbn [negb].
  destruct (pendingOf (files st)) as [|f0 t0] eqn:E; [done|].
  unfold processNextBatch, chunkOf. rewrite E.
  set (p := f0 :: t0) in *.
  set (ids := list_to_set (id <$> take n p) : gset jsstring).
  cbn [setBatches setFiles setInFlight files].
  rewrite pendingOf_markChunk, E. fold p.
  assert (Hin : length (take n p)
                <= length (filter (fun f => id f ∈ ids) p)).
  { rewrite <- (take_drop n p) at 2. rewrite filter_app, length_app.
    rewrite (filter_all (fun f => id f ∈ ids) (take n p)); [lia|].
    apply Forall_forall. intros f Hfin. unfold ids. rewrite <- E in *.
    by apply chunk_ids_in. }
  pose proof (filter_split_length (fun f => id f ∈ ids) p) as Hsplit.
  split; [lia|]. intros Hn.
  assert (0 < length (take n p)); [|lia].
  rewrite length_take. unfold p. cbn [length]. lia.
Qed.

(** Every cycle opened holds between one and [CHUNK_SIZE] items. *)
Lemma chunk_bound_step st ev st' :
  Forall (fun b => 0 < length (itemsToSend b) <= CHUNK_SIZE) (batches st) ->
  step toLowerCase st ev = Some st' ->
  Forall (fun b => 0 < length (itemsToSend b) <= CHUNK_SIZE) (batches st').
Proof.
  intros Hinv. destruct ev as [newFiles|i| | | | |k outcome|k]; cbn [step];
    try (by intros [= <-]).
  - intros [= <-]. unfold cycleEffect, cycleEffectWith.
    cbn [isProcessing isRequestInFlight files setFilesRef].
    destruct (negb _); [done|]. destruct (isRequestInFlight st); [done|].
    destruct (pendingOf (files st)) as [|f0 t0] eqn:E.
    { by destruct (existsb _ _). }
    unfold processNextBatch.
    cbn [batches setBatches setFiles setInFlight setFilesRef files]. rewrite E.
    apply Forall_app. split; [done|]. constructor; [|done].
    cbn [itemsToSend]. rewrite !length_fmap, length_take. cbn [length].
    unfold CHUNK_SIZE. lia.
  - unfold oracleSettled.
    destruct (batches st !! k) as [b|] eqn:Hk; [|by intros [= <-]].
    assert (Hb : 0 < length (itemsToSend b) <= CHUNK_SIZE).
    { rewrite Forall_forall in Hinv. apply Hinv. by eapply list_elem_of_lookup_2. }
    destruct (phase b); try by intros [= <-].
    destruct outcome as [e|results].
    + intros [= <-]. cbn. by apply Forall_insert.
    + destruct (mergeResults toLowerCase b results (files st)); [|done].
      intros [= <-]. cbn. by apply Forall_insert.
  - intros [= <-]. unfold cooldownElapsed.
    destruct (batches st !! k) as [b|] eqn:Hk; [|done].
    assert (Hb : 0 < length (itemsToSend b) <= CHUNK_SIZE).
    { rewrite Forall_forall in Hinv. apply Hinv. by eapply list_elem_of_lookup_2. }
    destruct (phase b); try done. cbn. by apply Forall_insert.
Qed.

(** X2.  In every state the application reaches from its initial state,
    whatever the events, each call opened so far was sent at least one
    and at most [CHUNK_SIZE] items. *)
Theorem X2_chunk_bound (evs : list Event) (st : AppState) :
  run toLowerCase initialState evs = Some st ->
  forall b, b ∈ batches st -> 0 < length (itemsToSend b) <= CHUNK_SIZE.
Proof.
  intros Hrun.
  assert (Hgen : forall evs st0 st1,
             Forall (fun b => 0 < length (itemsToSend b) <= CHUNK_SIZE) (batches st0) ->
             run toLowerCase st0 evs = Some st1 ->
             Forall (fun b => 0 < length (itemsToSend b) <= CHUNK_SIZE) (batches st1)).
  { clear. intros evs. induction evs as [|ev evs IH]; intros st0 st1 H0; cbn [run].
    - by intros [= <-].
    - destruct (step toLowerCase st0 ev) as [st'|] eqn:E; [|done].
      apply IH. by eapply chunk_bound_step. }
  intros b Hb.
  assert (HF : Forall (fun b => 0 < length (itemsToSend b) <= CHUNK_SIZE) (batches st)).
  { apply (Hgen evs initialState st); [constructor|exact Hrun]. }
  rewrite Forall_forall in HF. by apply HF.
Qed.

(** [toLowerCase] keeps the candidates of a base name apart. *)
Hypothesis lower_inj : forall base j k,
    toLowerCase (candidate base j) = toLowerCase (candidate base k) -> j = k.

(** X17.  A cycle that runs from its start to the return of its call,
    with no other event in between, leaves no record [processing]: the
    records it sent are [completed] or [error], whether the call
    succeeded or failed, and a record left [processing] before was
    turned to [error] at the start. *)
Theorem X17_cycle_leaves_none_processing (n : nat) (st : AppState)
    (outcome : JsError + list BatchResult) :
  isProcessing st = true ->
  isRequestInFlight st = false ->
  pendingOf (files st) <> [] ->
  exists st2,
    oracleSettled toLowerCase (length (batches st)) outcome
      (cycleEffectWith toLowerCase n st) = Some st2 /\
    length (files st2) = length (files st) /\
    forall f, f ∈ files st2 -> status f <> processing.
Proof using lower_inj.
  intros Hp Hf Hne. unfold cycleEffectWith. rewrite Hp, Hf. cbn [negb].
  destruct (pendingOf (files st)) as [|f0 t0] eqn:E; [done|].
  unfold processNextBatch. rewrite E.
  set (ids := list_to_set (id <$> take n (f0 :: t0)) : gset jsstring).
  set (used := collectUsedNames toLowerCase (filesRef st)).
  unfold oracleSettled.
  cbn [batches setBatches setFiles setInFlight files].
  rewrite list_lookup_middle by done. cbn [phase chunkIds].
  destruct outcome as [e|results].
  - eexists. split; [reflexivity|]. cbn [files setFiles setBatches].
    split; [unfold failChunk, markChunk; by rewrite !length_fmap|].
    intros f Hin. unfold failChunk in Hin.
    apply list_elem_of_fmap in Hin as (f' & -> & Hf').
    apply markChunk_processing in Hf'.
    destruct (decide (id f' ∈ ids)) as [Hid|Hid]; [done|]. tauto.
  - match goal with
    | |- context [mergeResults toLowerCase ?b results ?l] =>
        destruct (mergeResults_outcome toLowerCase lower_inj b results l)
          as (l' & Hl & Hall)
    end.
    rewrite Hl. eexists. split; [reflexivity|]. cbn [files setFiles setBatches].
    split.
    { apply Forall2_length in Hall. rewrite <- Hall.
      unfold markChunk. by rewrite length_fmap. }
    intros f Hin. apply list_elem_of_lookup in Hin as (i & Hi).
    destruct (Forall2_lookup_r _ _ _ _ _ Hall Hi) as (f' & Hi' & u & _ & Ho).
    apply list_elem_of_lookup_2, markChunk_processing in Hi'.
    unfold mergeOutcome in Ho. cbn [chunkIds] in Ho.
    destruct (decide (id f' ∈ ids)) as [Hid|Hid].
    + destruct (findResult results f') as [res|]; [|by subst f].
      by destruct Ho as (m & -> & _).
    + subst f. tauto.
Qed.

End CycleExtras.

(** ** Runs of the application *)

Lemma forallb_take {A} (p : A -> bool) (l : list A) n :
  forallb p l = true -> forallb p (take n l) = true.
Proof.
  revert n. induction l as [|x l IH]; intros [|n]; cbn; try done.
  intros [Hx Hl]%andb_prop. rewrite Hx. by apply IH.
Qed.

Lemma stop_demotes :
  demotes (fun f => if decide (status f = processing) then withStatus pending f else f).
Proof.
  intros f. destruct (decide (status f = processing)); [|by left].
  right. by exists pending.
Qed.

Lemma recordKey_demotes g f : demotes g -> recordKey (g f) = recordKey f.
Proof. intros Hg. by destruct (Hg f) as [->|(s & _ & ->)]. Qed.

Lemma recordKey_fmap_demotes g (l : list ProcessedFile) :
  demotes g -> recordKey <$> (g <$> l) = recordKey <$> l.
Proof.
  intros Hg. rewrite <- list_fmap_compose. apply list_fmap_ext.
  intros i f _. by apply recordKey_demotes.
Qed.

Lemma wellFormed_demotes g f : demotes g -> wellFormed f -> wellFormed (g f).
Proof.
  intros Hg Hf. destruct (Hg f) as [->|(s & Hs & ->)]; [done|].
  destruct Hf as (Hn & _ & Hm).
  split; [exact Hn|]. split; [intros Hc; cbn in Hc; congruence|exact Hm].
Qed.

Section RunExtras.

Variable toLowerCase : jsstring -> jsstring.

Lemma mergeFile_keeps b results used file file' used' :
  mergeFile toLowerCase b results used file = Some (file', used') ->
  recordKey file' = recordKey file /\ (wellFormed file -> wellFormed file').
Proof.
  unfold mergeFile. destruct (decide (id file ∈ chunkIds b)).
  - destruct (findResult results file) as [res|].
    + destruct (uniqueName toLowerCase used (baseFinalNameOf b res file))
        as [unique|] eqn:E; [|done].
      intros [= <- <-]. split; [done|]. intros (Hn & _ & _).
      apply uniqueLoop_nonempty in E; [|apply baseFinalNameOf_nonempty].
      destruct unique as [|u t]; [done|].
      split; [done|]. split; [by exists u, t|]. by split.
    + intros [= <- <-]. split; [done|].
      apply (wellFormed_demotes (withStatus error)).
      intros f. right. by exists error.
  - by intros [= <- <-].
Qed.

Lemma mergeFrom_keeps b results prev :
  forall used l used',
    mergeFrom toLowerCase b results used prev = Some (l, used') ->
    recordKey <$> l = recordKey <$> prev /\
    (Forall wellFormed prev -> Forall wellFormed l).
Proof.
  induction prev as [|file rest IH]; intros used l used'.
  - by intros [= <- <-].
  - cbn [mergeFrom].
    destruct (mergeFile toLowerCase b results used file) as [[file' used1]|] eqn:Ef;
      [|done].
    destruct (mergeFrom toLowerCase b results used1 rest) as [[l' used2]|] eqn:Er;
      [|done].
    intros [= <- <-]. apply mergeFile_keeps in Ef as (Hk & Hw).
    destruct (IH _ _ _ Er) as (Hks & Hws).
    split; [by rewrite !fmap_cons, Hk, Hks|].
    intros [Hf Hr]%Forall_cons. constructor; [by apply Hw|by apply Hws].
Qed.

Lemma mergeResults_keeps b results prev l :
  mergeResults toLowerCase b results prev = Some l ->
  recordKey <$> l = recordKey <$> prev /\
  (Forall wellFormed prev -> Forall wellFormed l).
Proof.
  unfold mergeResults.
  destruct (mergeFrom toLowerCase b results (usedNames b) prev) as [[l' u]|] eqn:E;
    [|done].
  intros [= <-]. by apply (mergeFrom_keeps _ _ _ _ _ _ E).
Qed.

Lemma Forall_wellFormed_demotes g (l : list ProcessedFile) :
  demotes g -> Forall wellFormed l -> Forall wellFormed (g <$> l).
Proof.
  intros Hg Hl. apply Forall_fmap. eapply Forall_impl; [exact Hl|].
  intros f Hf. by apply wellFormed_demotes.
Qed.

Lemma step_wellFormed st ev st' :
  Forall wellFormed (files st) ->
  step toLowerCase st ev = Some st' ->
  Forall wellFormed (files st').
Proof.
  intros Hinv. destruct ev as [newFiles|i| | | | |k outcome|k]; cbn [step].
  - intros [= <-]. cbn. unfold handleFilesSelected. apply Forall_app.
    split; [done|]. apply Forall_fmap, Forall_forall. intros p _.
    split; [done|]. split; [done|]. cbn. split; intros [? [=]].
  - intros [= <-]. cbn. unfold handleDeleteFile.
    rewrite Forall_forall in Hinv |- *. intros f Hf.
    apply list_elem_of_filter in Hf as [_ Hf]. by apply Hinv.
  - by intros [= <-].
  - intros [= <-]. cbn. apply Forall_wellFormed_demotes; [apply stop_demotes|done].
  - intros [= <-]. cbn. constructor.
  - intros [= <-]. unfold cycleEffect, cycleEffectWith.
    cbn [isProcessing isRequestInFlight files setFilesRef].
    destruct (negb _); [done|]. destruct (isRequestInFlight st); [done|].
    destruct (pendingOf (files st)).
    + destruct (existsb _ _); [|done]. cbn.
      apply Forall_wellFormed_demotes; [apply healZombies_demotes|done].
    + unfold processNextBatch. cbn [setBatches setFiles setInFlight setFilesRef files].
      apply Forall_wellFormed_demotes; [apply markChunk_demotes|done].
  - unfold oracleSettled.
    destruct (batches st !! k) as [b|]; [|by intros [= <-]].
    destruct (phase b); try by intros [= <-].
    destruct outcome as [e|results].
    + intros [= <-]. cbn.
      apply Forall_wellFormed_demotes; [apply failChunk_demotes|done].
    + destruct (mergeResults toLowerCase b results (files st)) as [l|] eqn:Hm;
        [|done].
      intros [= <-]. cbn. by apply (mergeResults_keeps _ _ _ _ Hm).
  - intros [= <-]. unfold cooldownElapsed.
    destruct (batches st !! k) as [b|]; [|done]. by destruct (phase b).
Qed.

(** X14.  In every state the application reaches from its initial state,
    whatever the events, each record's original name is the name of its
    file, each [completed] record has a non-empty new name, and a record
    has a new name exactly when it has metadata. *)
Theorem X14_records_well_formed (evs : list Event) (st : AppState) :
  run toLowerCase initialState evs = Some st ->
  forall f, f ∈ files st ->
    originalName f = name (originalFile f) /\
    (status f = completed -> exists u t, newName f = Some (u :: t)) /\
    (is_Some (newName f) <-> is_Some (metadata f)).
Proof.
  intros Hrun.
  assert (Hgen : forall evs st0 st1,
             Forall wellFormed (files st0) ->
             run toLowerCase st0 evs = Some st1 ->
             Forall wellFormed (files st1)).
  { clear. intros evs. induction evs as [|ev evs IH]; intros st0 st1 H0; cbn [run].
    - by intros [= <-].
    - destruct (step toLowerCase st0 ev) as [st'|] eqn:E; [|done].
      apply IH. by eapply step_wellFormed. }
  assert (HF : Forall wellFormed (files st)).
  { apply (Hgen evs initialState st); [constructor|exact Hrun]. }
  rewrite Forall_forall in HF. intros f Hf. by apply HF.
Qed.

(** X15.  Only an upload adds records, and it appends them behind the
    queue with the ids drawn for them; deletion and restart only remove
    records, keeping the order of the rest; every other event, the merge
    of a result included, leaves the sequence of ids, original names and
    files of the queue exactly as it was. *)
Theorem X15_queue_frame (st : AppState) (ev : Event) (st' : AppState) :
  step toLowerCase st ev = Some st' ->
  (forall newFiles, ev = FilesSelected newFiles ->
     recordKey <$> files st'
     = (recordKey <$> files st)
       ++ ((fun p : jsstring * File => (fst p, name (snd p), snd p)) <$> newFiles)) /\
  (isUpload ev = false ->
   (recordKey <$> files st') `sublist_of` (recordKey <$> files st)) /\
  (isUpload ev = false -> removesRecords ev = false ->
   recordKey <$> files st' = recordKey <$> files st).
Proof.
  intros Hstep.
  assert (Hcases :
    (exists newFiles, ev = FilesSelected newFiles /\
       recordKey <$> files st'
       = (recordKey <$> files st)
         ++ ((fun p : jsstring * File => (fst p, name (snd p), snd p)) <$> newFiles)) \/
    (isUpload ev = false /\ removesRecords ev = true /\
     (recordKey <$> files st') `sublist_of` (recordKey <$> files st)) \/
    (isUpload ev = false /\ removesRecords ev = false /\
     recordKey <$> files st' = recordKey <$> files st)).
  { destruct ev as [newFiles|i| | | | |k outcome|k]; cbn [step] in Hstep.
    - left. exists newFiles. split; [done|]. injection Hstep as <-. cbn.
      unfold handleFilesSelected. rewrite fmap_app. f_equal.
      rewrite <- list_fmap_compose. by apply list_fmap_ext.
    - right; left. injection Hstep as <-. cbn. repeat split.
      unfold handleDeleteFile. apply fmap_sublist, sublist_filter.
    - right; right. by injection Hstep as <-.
    - right; right. injection Hstep as <-. cbn. repeat split.
      apply recordKey_fmap_demotes, stop_demotes.
    - right; left. injection Hstep as <-. cbn. repeat split. apply sublist_nil_l.
    - right; right. injection Hstep as <-. repeat split.
      unfold cycleEffect, cycleEffectWith.
      cbn [isProcessing isRequestInFlight files setFilesRef].
      destruct (negb _); [done|]. destruct (isRequestInFlight st); [done|].
      destruct (pendingOf (files st)).
      + destruct (existsb _ _); [|done]. cbn.
        apply recordKey_fmap_demotes, healZombies_demotes.
      + unfold processNextBatch.
        cbn [setBatches setFiles setInFlight setFilesRef files].
        apply recordKey_fmap_demotes, markChunk_demotes.
    - right; right. repeat split. unfold oracleSettled in Hstep.
      destruct (batches st !! k) as [b|]; [|by injection Hstep as <-].
      destruct (phase b); try by injection Hstep as <-.
      destruct outcome as [e|results].
      + injection Hstep as <-. cbn.
        apply recordKey_fmap_demotes, failChunk_demotes.
      + destruct (mergeResults toLowerCase b results (files st)) as [l|] eqn:Hm;
          [|done].
        injection Hstep as <-. cbn. by apply (mergeResults_keeps _ _ _ _ Hm).
    - right; right. injection Hstep as <-. repeat split. unfold cooldownElapsed.
      destruct (batches st !! k) as [b|]; [|done]. by destruct (phase b). }
  destruct Hcases as [(nf & -> & H)|[(Hu & Hr & H)|(Hu & Hr & H)]].
  - split; [|split]; [|done|done]. by intros ? [= <-].
  - split; [|split]; [by intros ? ->|done|congruence].
  - split; [|split]; [by intros ? ->|by rewrite H|done].
Qed.

(** X11.  Restart empties the queue and clears both flags; whatever a
    call opened before it returns afterwards, successfully or not, the
    queue stays empty. *)
Theorem X11_restart_discards (st : AppState) (k : nat)
    (outcome : JsError + list BatchResult) :
  files (handleRestart st) = [] /\
  isProcessing (handleRestart st) = false /\
  isRequestInFlight (handleRestart st) = false /\
  exists st', oracleSettled toLowerCase k outcome (handleRestart st) = Some st' /\
              files st' = [].
Proof.
  repeat split. unfold oracleSettled.
  destruct (batches (handleRestart st) !! k) as [b|]; [|by eexists].
  destruct (phase b); try by eexists.
  destruct outcome as [e|results]; by eexists.
Qed.

(** X10.  On a run without stop and restart at most one cycle is
    unfinished at any time (its call outstanding or its cooldown
    running), and none is when the in-flight guard is free. *)
Theorem X10_single_flight (evs : list Event) (st : AppState) :
  forallb (fun ev => negb (interrupts ev)) evs = true ->
  run toLowerCase initialState evs = Some st ->
  (forall j k bj bk,
      batches st !! j = Some bj -> batches st !! k = Some bk ->
      phase bj <> finished -> phase bk <> finished -> j = k) /\
  (isRequestInFlight st = false ->
   forall b, b ∈ batches st -> phase b = finished).
Proof.
  intros Hevs Hrun.
  pose proof (names_apart_without_interrupts toLowerCase evs initialState st
                (DedupInv_initial toLowerCase) Hevs Hrun) as Hinv.
  split; [apply Hinv|apply Hinv].
Qed.

(** [toLowerCase] keeps the candidates of a base name apart. *)
Hypothesis lower_inj : forall base j k,
    toLowerCase (candidate base j) = toLowerCase (candidate base k) -> j = k.

(** X1.  On a run without stop and restart, after any number of its
    events the application is in a state in which no two [completed]
    records share a new name, case-insensitively. *)
Theorem X1_names_apart_without_stop (evs : list Event) :
  forallb (fun ev => negb (interrupts ev)) evs = true ->
  forall n,
    exists st, run toLowerCase initialState (take n evs) = Some st /\
               namesApart toLowerCase (files st).
Proof using lower_inj.
  intros Hevs n.
  apply (names_apart_from_start toLowerCase lower_inj). by apply forallb_take.
Qed.

End RunExtras.

(** ** Download and display *)

Lemma archiveEntry_downloadable f :
  downloadable f ->
  exists u t, newName f = Some (u :: t) /\
              archiveEntry f = Some (u :: t, originalFile f).
Proof.
  intros (_ & u & t & Hn). exists u, t. unfold archiveEntry. by rewrite Hn.
Qed.

Lemma archive_length (l : list ProcessedFile) :
  length (omap archiveEntry (filter downloadable l)) = length (filter downloadable l).
Proof.
  induction l as [|f l IH]; [done|]. rewrite filter_cons.
  destruct (decide (downloadable f)) as [Hd|]; [|done].
  destruct (archiveEntry_downloadable f Hd) as (u & t & _ & He).
  cbn [omap list_omap]. rewrite He. cbn. by rewrite <- IH.
Qed.

Lemma archive_elem (l : list ProcessedFile) n file :
  (n, file) ∈ omap archiveEntry (filter downloadable l) <->
  exists f, f ∈ l /\ downloadable f /\ newName f = Some n /\ originalFile f = file.
Proof.
  rewrite list_elem_of_omap. split.
  - intros (f & Hf & He). apply list_elem_of_filter in Hf as [Hd Hf].
    destruct (archiveEntry_downloadable f Hd) as (u & t & Hn & He').
    rewrite He' in He. injection He as <- <-. by exists f.
  - intros (f & Hf & Hd & Hn & <-). exists f.
    split; [by apply list_elem_of_filter|].
    destruct (archiveEntry_downloadable f Hd) as (u & t & Hn' & ->). congruence.
Qed.

Lemma archive_names_sublist (toLowerCase : jsstring -> jsstring)
    (l : list ProcessedFile) :
  toLowerCase <$> (fst <$> omap archiveEntry (filter downloadable l))
    `sublist_of` completedNames toLowerCase l.
Proof.
  induction l as [|f l IH]; [done|].
  rewrite filter_cons, completedNames_cons.
  destruct (decide (downloadable f)) as [Hd|Hd].
  - destruct (archiveEntry_downloadable f Hd) as (u & t & Hn & He).
    cbn [omap list_omap]. rewrite He. destruct Hd as (Hs & _).
    unfold completedName. rewrite decide_True, Hn by done. cbn.
    by apply sublist_skip.
  - destruct (completedName toLowerCase f); [by apply sublist_cons|done].
Qed.

(** X12.  Download refuses when the archiver is not loaded and when no
    record is [completed] with a non-empty new name.  Otherwise it hands
    the archiver one entry for each such record, never an empty list:
    the record's new name with the record's own file; and when no two
    [completed] records share a new name case-insensitively, no two
    entries have the same name, so no entry overwrites another. *)
Theorem X12_download_entries (toLowerCase : jsstring -> jsstring)
    (l : list ProcessedFile) :
  handleDownload false l = ArchiverMissing /\
  (handleDownload true l = NothingToDownload <->
   forall f, f ∈ l -> ~ downloadable f) /\
  (forall entries,
      handleDownload true l = Archive entries ->
      entries <> [] /\
      length entries = length (filter downloadable l) /\
      (forall n file,
          (n, file) ∈ entries <->
          exists f, f ∈ l /\ downloadable f /\ newName f = Some n /\
                    originalFile f = file) /\
      (namesApart toLowerCase l -> NoDup (fst <$> entries))).
Proof.
  split; [done|]. unfold handleDownload. cbn [negb]. split.
  - destruct (filter downloadable l) as [|f0 t0] eqn:E.
    + split; [|done]. intros _ f Hf Hd.
      assert (f ∈ filter downloadable l) as Hin by (by apply list_elem_of_filter).
      rewrite E in Hin. by apply not_elem_of_nil in Hin.
    + split; [done|]. intros Hnone. exfalso.
      assert (f0 ∈ filter downloadable l) as Hin by (rewrite E; by left).
      apply list_elem_of_filter in Hin as [Hd Hin]. by apply (Hnone f0).
  - intros entries.
    pose proof (archive_length l) as Hlen.
    pose proof (archive_elem l) as Helem.
    pose proof (archive_names_sublist toLowerCase l) as Hsub.
    cbn zeta.
    remember (omap archiveEntry (filter downloadable l)) as e eqn:He.
    clear He.
    destruct (filter downloadable l) as [|f0 t0] eqn:E; [done|].
    intros [= <-]. split; [|split; [|split]].
    + intros ->. done.
    + done.
    + done.
    + intros Hnd. unfold namesApart in Hnd.
      eapply NoDup_fmap_1, sublist_NoDup; [exact Hnd|exact Hsub].
Qed.

Lemma count_by_status (l : list ProcessedFile) :
  length l
  = length (filter (fun f => status f = pending) l)
    + length (filter (fun f => status f = completed) l)
    + length (filter (fun f => status f = error) l)
    + length (filter (fun f => status f = processing) l).
Proof.
  induction l as [|f l IH]; [done|]. rewrite !filter_cons.
  destruct (status f) eqn:E; repeat case_decide; try congruence;
    cbn [length]; lia.
Qed.

Lemma completedCount_sum (l : list ProcessedFile) :
  completedCount l
  = length (filter (fun f => status f = completed) l)
    + length (filter (fun f => status f = error) l).
Proof.
  unfold completedCount. induction l as [|f l IH]; [done|].
  rewrite !filter_cons.
  destruct (decide (status f = completed \/ status f = error)) as [[H|H]|H].
  - rewrite decide_True, decide_False by congruence. cbn. lia.
  - rewrite decide_False, decide_True by congruence. cbn. lia.
  - rewrite !decide_False by tauto. done.
Qed.

(** X13.  The counters of the results table split the queue by status:
    the total is the sum of the pending, completed and error counters and
    of the number of [processing] records, which no counter and no tab
    other than 'all' shows; the progress count is the sum of the
    completed and error counters; and each tab lists, in queue order,
    as many rows as its counter says. *)
Theorem X13_counters_partition (l : list ProcessedFile) :
  stat_all (stats l)
  = stat_pending (stats l) + stat_completed (stats l) + stat_error (stats l)
    + length (filter (fun f => status f = processing) l) /\
  completedCount l = stat_completed (stats l) + stat_error (stats l) /\
  completedCount l <= stat_all (stats l) /\
  (forall flt, filteredFiles flt l `sublist_of` l) /\
  (forall flt f, flt <> showAll -> f ∈ filteredFiles flt l ->
                 status f <> processing) /\
  length (filteredFiles showAll l) = stat_all (stats l) /\
  length (filteredFiles showPending l) = stat_pending (stats l) /\
  length (filteredFiles showCompleted l) = stat_completed (stats l) /\
  length (filteredFiles showError l) = stat_error (stats l).
Proof.
  pose proof (count_by_status l) as Hc.
  pose proof (completedCount_sum l) as Hs.
  cbn [stats stat_all stat_pending stat_completed stat_error].
  split; [done|]. split; [done|]. split; [lia|]. split; [|split; [|done]].
  - intros []; unfold filteredFiles; cbn; [done|apply sublist_filter..].
  - intros [] f Hne; unfold filteredFiles; cbn; [done|..];
      intros [Hst _]%list_elem_of_filter; congruence.
Qed.

(** ** A call that fails for good *)

Section FailureExtras.

Variable JSON_parse : jsstring -> JsError + list RawItem.
Variable toLowerCase : jsstring -> jsstring.

(** X19.  When the attempt that ends the client's tries throws an error
    that is not transient, or is the fourth in a row, the client raises
    that error; the orchestrator's [catch] branch then turns every record
    of the chunk to [error], leaves each one's other fields and all other
    records as they are, keeps the in-flight guard as it is and moves the
    cycle to its cooldown. *)
Theorem X19_failed_call_marks_chunk (replies : nat -> ApiReply) (k : nat)
    (e : JsError) (st : AppState) (n : nat) (b : Batch) :
  k <= 3 ->
  (forall j, j < k -> failsTransiently JSON_parse (replies j) = true) ->
  tryBody JSON_parse (replies k) = inl e ->
  isTransient e = false \/ k = 3 ->
  batches st !! n = Some b ->
  phase b = awaitingOracle ->
  snd (analyzeFilenamesBatch JSON_parse replies) = inl e /\
  exists st',
    oracleSettled toLowerCase n
      (snd (analyzeFilenamesBatch JSON_parse replies)) st = Some st' /\
    length (files st') = length (files st) /\
    (forall i f, files st !! i = Some f ->
       files st' !! i
       = Some (if decide (id f ∈ chunkIds b) then withStatus error f else f)) /\
    isRequestInFlight st' = isRequestInFlight st /\
    batches st' !! n = Some (withPhase coolingDown b).
Proof.
  intros Hk Hbefore He Hlast Hb Hph.
  rewrite (analyzeFilenamesBatch_retries JSON_parse replies k); [|done..|].
  - rewrite He. cbn [snd]. split; [done|].
    unfold oracleSettled. rewrite Hb, Hph.
    eexists. split; [reflexivity|]. cbn.
    split; [unfold failChunk; by rewrite length_fmap|].
    split; [intros i f Hi; by apply failChunk_lookup|].
    split; [done|]. apply list_lookup_insert_eq. by eapply lookup_lt_Some.
  - intros Hk3. unfold failsTransiently. rewrite He.
    destruct Hlast; [done|lia].
Qed.

End FailureExtras.

(** * Concrete runs *)



(** The two resolutions the specification lists. *)
Example uniqueName_abc_1 :
  uniqueName asciiLower {[ js "a--b--c.png" ]} (js "a--b--c.png")
  = Some (js "a--b--c_1.png").
Proof. vm_compute. reflexivity. Qed.

Example uniqueName_abc_2 :
  uniqueName asciiLower ({[ js "a--b--c.png" ]} ∪ {[ js "a--b--c_1.png" ]})
    (js "a--b--c.png")
  = Some (js "a--b--c_2.png").
Proof. vm_compute. reflexivity. Qed.

(** The end-to-end scenario of the specification. *)
Example three_icons :
  exists st,
    run asciiLower initialState
      [ FilesSelected [(js "1", {| name := js "icon1.png" |});
                       (js "2", {| name := js "icon2.png" |});
                       (js "3", {| name := js "icon3.png" |})]; RunEffects;
        StartProcessing; RunEffects;
        OracleSettled 0 (inr [homeApp (js "1") (js "icon1");
                              homeApp (js "2") (js "icon2");
                              searchWeb (js "3") (js "icon3")]); RunEffects;
        CooldownElapsed 0; RunEffects ] = Some st /\
    newName <$> files st
    = [ Some (js "Home--" ++ SHOUYE ++ js "--app.png");
        Some (js "Home--" ++ SHOUYE ++ js "--app_1.png");
        Some (js "Search--" ++ SOUSUO ++ js "--web.png") ] /\
    isProcessing st = false.
Proof. eexists. split; [vm_compute; reflexivity|]. by vm_compute. Qed.

(** C1 fails on the code.  The user stops while the call for [a.png] is
    outstanding, adds [b.png] and starts again, so that two calls are
    open, each with the registry of its own start (both empty).  The
    second call gives [b.png] the name ["Search--搜索--web.png"]; the first
    call, merged afterwards, gives [a.png] the same name: two [completed]
    records share a new name. *)
Theorem C1_duplicate_after_stop_and_start :
  exists st,
    run asciiLower initialState restartRace = Some st /\
    id <$> files st = [js "a"; js "b"] /\
    status <$> files st = [completed; completed] /\
    newName <$> files st
    = [ Some (js "Search--" ++ SOUSUO ++ js "--web.png");
        Some (js "Search--" ++ SOUSUO ++ js "--web.png") ] /\
    ~ namesApart asciiLower (files st).
Proof.
  eexists. split; [vm_compute; reflexivity|].
  split; [by vm_compute|]. split; [by vm_compute|]. split; [by vm_compute|].
  unfold namesApart. intros Hnd. vm_compute in Hnd.
  apply NoDup_cons in Hnd as [Hdup _]. apply Hdup. apply list_elem_of_here.
Qed.



(** C4 fails on the code when the original name has no extension and the
    domain label has a dot: the counter goes in front of the last dot of
    the domain, ["google_1.com"], not at the end of the name. *)
Theorem C4_counter_inside_domain :
  exists st,
    run asciiLower initialState noExtensionCollision = Some st /\
    newName <$> files st
    = [ Some (js "Search--" ++ SOUSUO ++ js "--google.com");
        Some (js "Search--" ++ SOUSUO ++ js "--google_1.com") ] /\
    newName <$> files st
    <> [ Some (js "Search--" ++ SOUSUO ++ js "--google.com");
         Some (js "Search--" ++ SOUSUO ++ js "--google.com_1") ].
Proof.
  eexists. split; [vm_compute; reflexivity|]. split; [by vm_compute|].
  vm_compute. discriminate.
Qed.



Lemma C7_witness :
  chunkOf 2 [pendingFile (js "A") (js "a.png"); pendingFile (js "B") (js "b.png");
             pendingFile (js "C") (js "c.png")]
  = [pendingFile (js "A") (js "a.png"); pendingFile (js "B") (js "b.png")].
Proof.
  destruct (C7_fifo_chunk asciiLower) as (_ & _ & _ & H).
  by apply H.
Defined.

Lemma C10_witness :
  let q := [pendingFile (js "A") (js "a.png"); pendingFile (js "B") (js "b.png");
            pendingFile (js "C") (js "c.png")] in
  NoDup (id <$> q) /\
  (((js "B" ∉ (id <$> q)) /\ handleDeleteFile (js "B") q = q) \/
   (exists l1 f l2, q = l1 ++ f :: l2 /\ id f = js "B" /\
                    handleDeleteFile (js "B") q = l1 ++ l2)).
Proof.
  cbn zeta.
  assert (Hnd : NoDup (id <$> [pendingFile (js "A") (js "a.png");
                               pendingFile (js "B") (js "b.png");
                               pendingFile (js "C") (js "c.png")])).
  { apply (bool_decide_unpack _). by vm_compute. }
  split; [exact Hnd|]. by apply C10_delete_frame.
Defined.


Lemma C9_witness :
  snd (analyzeFilenamesBatch (fun _ => inr []) (fun _ => Responds None)) = inr [] /\
  exists st',
    oracleSettled asciiLower 0
      (snd (analyzeFilenamesBatch (fun _ => inr []) (fun _ => Responds None)))
      sampleState = Some st' /\
    length (files st') = length (files sampleState) /\
    (forall i f, files sampleState !! i = Some f ->
       files st' !! i
       = Some (if decide (id f ∈ chunkIds sampleBatch) then withStatus error f else f)).
Proof.
  apply (C9_empty_text (fun _ => inr []) asciiLower (fun _ => Responds None) 0);
    [lia|lia|by left|reflexivity|reflexivity].
Defined.

(** ** Instances of the further properties *)

Lemma X1_witness :
  forallb (fun ev => negb (interrupts ev)) threeIconsRun = true /\
  exists st, run asciiLower initialState (take 5 threeIconsRun) = Some st /\
             namesApart asciiLower (files st).
Proof.
  split; [reflexivity|].
  exact (X1_names_apart_without_stop asciiLower asciiLower_candidate_inj
           threeIconsRun eq_refl 5).
Defined.

Lemma X2_witness :
  exists st,
    run asciiLower initialState restartRace = Some st /\
    forall b, b ∈ batches st -> 0 < length (itemsToSend b) <= CHUNK_SIZE.
Proof.
  eexists. split; [vm_compute; reflexivity|].
  apply (X2_chunk_bound asciiLower restartRace). vm_compute. reflexivity.
Defined.

Lemma X3_witness :
  let r := sanitizePart (Some (js "my icon.v2")) false in
  head r <> Some UNDERSCORE /\ last r <> Some UNDERSCORE /\ (DOT ∉ r).
Proof.
  destruct (X3_sanitizePart_shape (Some (js "my icon.v2")) false)
    as (_ & _ & _ & _ & H & _).
  exact (H eq_refl).
Defined.

Lemma X4_witness :
  exists m,
    m <= size ({[ js "a--b--c.png" ]} : gset jsstring) /\
    uniqueName asciiLower {[ js "a--b--c.png" ]} (js "A--b--c.png")
    = Some (candidate (js "A--b--c.png") m) /\
    (asciiLower (candidate (js "A--b--c.png") m)
       ∉ ({[ js "a--b--c.png" ]} : gset jsstring)) /\
    forall j, j < m ->
      asciiLower (candidate (js "A--b--c.png") j)
        ∈ ({[ js "a--b--c.png" ]} : gset jsstring).
Proof.
  exact (X4_first_free_name asciiLower asciiLower_candidate_inj
           {[ js "a--b--c.png" ]} (js "A--b--c.png")).
Defined.

Lemma X5_witness :
  candidate (baseFinalNameOf sampleBatch (homeApp (js "a") (js "a"))
               (withStatus processing (pendingFile (js "a") (js "a.png")))) 1
  = baseName (englishName (metadataOf (homeApp (js "a") (js "a"))))
      (chineseName (metadataOf (homeApp (js "a") (js "a"))))
      (domainOrNote (metadataOf (homeApp (js "a") (js "a")))) []
    ++ counterSuffix 1 ++ DOT :: ext (chunkDatum (pendingFile (js "a") (js "a.png"))).
Proof.
  apply X5_extension_kept; [reflexivity|]. vm_compute. discriminate.
Defined.

Lemma X6_witness :
  nameWithoutExt (chunkDatum (pendingFile (js "a") (js "my.icon.png")))
  ++ DOT :: ext (chunkDatum (pendingFile (js "a") (js "my.icon.png")))
  = js "my.icon.png".
Proof.
  destruct (X6_chunkDatum_round_trip (pendingFile (js "a") (js "my.icon.png")))
    as (_ & _ & _ & H & _).
  apply H. apply (bool_decide_unpack _). by vm_compute.
Defined.

Lemma X7_witness :
  stripFences (FENCE ++ js "json" ++ [10%N] ++ js "[]" ++ [10%N] ++ FENCE) = js "[]".
Proof.
  destruct (X7_stripFences_unwraps [10%N] (js "[]") [10%N]) as (H & _).
  - by repeat constructor.
  - by repeat constructor.
  - by intros u [= <-].
  - by intros u [= <-].
  - exact H.
Defined.

Lemma X8_witness :
  exists b,
    batches (cycleEffectWith asciiLower 2 readyState) = batches readyState ++ [b] /\
    isRequestInFlight (cycleEffectWith asciiLower 2 readyState) = true /\
    forall f', f' ∈ files (cycleEffectWith asciiLower 2 readyState) ->
               (status f' = processing <-> id f' ∈ chunkIds b).
Proof.
  destruct (X8_cycle_start_marks asciiLower 2 readyState)
    as (b & Hb & Hfl & _ & Hiff & _); [reflexivity|reflexivity|by vm_compute|].
  by exists b.
Defined.

Lemma X9_witness :
  length (pendingOf (files (cycleEffectWith asciiLower 2 readyState)))
  < length (pendingOf (files readyState)).
Proof.
  apply X9_cycle_consumes_pending; [reflexivity|reflexivity|by vm_compute|lia].
Defined.

Lemma X10_witness :
  exists st,
    run asciiLower initialState threeIconsRun = Some st /\
    (isRequestInFlight st = false ->
     forall b, b ∈ batches st -> phase b = finished).
Proof.
  eexists. split; [vm_compute; reflexivity|].
  apply (X10_single_flight asciiLower threeIconsRun); [reflexivity|].
  vm_compute. reflexivity.
Defined.

Lemma X12_witness :
  namesApart asciiLower doneQueue /\
  exists entries,
    handleDownload true doneQueue = Archive entries /\
    NoDup (fst <$> entries).
Proof.
  assert (Hnd : namesApart asciiLower doneQueue).
  { unfold namesApart. apply (bool_decide_unpack _). by vm_compute. }
  split; [exact Hnd|]. eexists. split; [reflexivity|].
  destruct (X12_download_entries asciiLower doneQueue) as (_ & _ & H).
  by apply H.
Defined.

Lemma X13_witness :
  showPending <> showAll /\
  Forall (fun f => status f <> processing) (filteredFiles showPending sampleQueue).
Proof.
  destruct (X13_counters_partition sampleQueue) as (_ & _ & _ & _ & H & _).
  split; [discriminate|]. apply Forall_forall. intros f.
  apply H. discriminate.
Defined.

Lemma X14_witness :
  exists st,
    run asciiLower initialState restartRace = Some st /\
    forall f, f ∈ files st ->
      originalName f = name (originalFile f) /\
      (status f = completed -> exists u t, newName f = Some (u :: t)) /\
      (is_Some (newName f) <-> is_Some (metadata f)).
Proof.
  eexists. split; [vm_compute; reflexivity|].
  apply (X14_records_well_formed asciiLower restartRace). vm_compute. reflexivity.
Defined.

Lemma X15_witness :
  exists st',
    step asciiLower sampleState (OracleSettled 0 (inr [homeApp (js "a") (js "a")]))
    = Some st' /\
    recordKey <$> files st' = recordKey <$> files sampleState.
Proof.
  eexists. split; [vm_compute; reflexivity|].
  eapply (X15_queue_frame asciiLower sampleState
            (OracleSettled 0 (inr [homeApp (js "a") (js "a")])));
    [vm_compute; reflexivity|reflexivity|reflexivity].
Defined.


Lemma X17_witness :
  exists st2,
    oracleSettled asciiLower (length (batches readyState))
      (inr [homeApp (js "A") (js "a")]) (cycleEffectWith asciiLower 2 readyState)
    = Some st2 /\
    length (files st2) = length (files readyState) /\
    forall f, f ∈ files st2 -> status f <> processing.
Proof.
  apply (X17_cycle_leaves_none_processing asciiLower asciiLower_candidate_inj);
    [reflexivity|reflexivity|by vm_compute].
Defined.

Lemma X18_witness :
  tryBody (fun _ => inr [])
    (Responds (Some (FENCE ++ js "json" ++ [10%N] ++ js "[]" ++ [10%N] ++ FENCE)))
  = tryBody (fun _ => inr []) (Responds (Some (js "[]"))).
Proof.
  apply (X18_fenced_reply_parses_alike (fun _ => inr []) [10%N] (js "[]") [10%N]).
  - by repeat constructor.
  - by repeat constructor.
  - by exists 91%N.
  - by intros u [= <-].
  - reflexivity.
Defined.

Lemma X19_witness :
  snd (analyzeFilenamesBatch (fun _ => inr []) (fun _ => Throws rateLimited))
  = inl rateLimited /\
  exists st',
    oracleSettled asciiLower 0
      (snd (analyzeFilenamesBatch (fun _ => inr []) (fun _ => Throws rateLimited)))
      sampleState = Some st' /\
    length (files st') = length (files sampleState) /\
    (forall i f, files sampleState !! i = Some f ->
       files st' !! i
       = Some (if decide (id f ∈ chunkIds sampleBatch) then withStatus error f else f)) /\
    isRequestInFlight st' = isRequestInFlight sampleState /\
    batches st' !! 0 = Some (withPhase coolingDown sampleBatch).
Proof.
  apply (X19_failed_call_marks_chunk (fun _ => inr []) asciiLower
           (fun _ => Throws rateLimited) 3);
    [lia|done|done|by right|reflexivity|reflexivity].
Defined.
